(** * alog: asynchronous, leveled, structured logging

    A shallow embedding of [logger.go] (the leveled engine with its text and
    JSON encoders) and of the scoped [fieldLogger], followed by the
    properties of the level policy, the field sets, the encoders and the
    shutdown protocol.

    Conventions.
    - [Level] is Go's [int]; it is modelled as [Z].  No arithmetic is ever
      done on a level, only comparisons, so no wrap-around occurs.
    - A Go [Fields] value is a reference to a map (or nil).  Maps live in a
      heap of maps, [Fields] values are [option loc], and two holders of the
      same location see each other's writes.
    - The channel [entChan] is its buffered contents plus a closed flag.
    - [fmt], [time], [strings] and [encoding/json] are not code of this
      package: they are the operations of the class [GoRuntime]. *)

From Stdlib Require Import ZArith Lia.
From stdpp Require Import base option list gmap strings fin_maps pretty sorting.

#[local] Open Scope string_scope.
#[local] Open Scope Z_scope.
#[local] Open Scope list_scope.

(** ** Outcomes of a Go call *)

Inductive outcome (A : Type) : Type :=
| Done (a : A)                 (* the call returns *)
| GoPanic (payload : string)   (* panic(payload), or a run-time panic *)
| OsExit (code : Z)            (* os.Exit(code) *)
| Blocked.                     (* the goroutine cannot proceed yet *)
Arguments Done {A} a.
Arguments GoPanic {A} payload.
Arguments OsExit {A} code.
Arguments Blocked {A}.

Definition newline : string := String (Ascii.ascii_of_nat 10) "".

(** ** Values of type [interface{}] *)

Inductive value : Type :=
| VStr (s : string)
| VInt (n : Z)
| VErr (msg : string)     (* an error whose Error method returns [msg] *)
| VOther (tag : nat).     (* any other Go value: a channel, a func, ... *)

#[global] Instance value_eq_dec : EqDecision value.
Proof. solve_decision. Defined.

(** The type assertion [v.(error)] followed by [err.Error()].  The errors
    of the model are those whose Error method returns; an error value whose
    Error method panics (a nil pointer of a type that implements [error])
    has no counterpart, and no property below speaks of one. *)
Definition as_error (v : value) : option string :=
  match v with
  | VErr msg => Some msg
  | _ => None
  end.

(** ** Severity levels *)

Definition Level := Z.

Definition NoLevel : Level := 0.
Definition PanicLevel : Level := 1.
Definition FatalLevel : Level := 2.
Definition ErrorLevel : Level := 3.
Definition WarnLevel : Level := 4.
Definition InfoLevel : Level := 5.
Definition DebugLevel : Level := 6.

(** Indexing a Go array: out of range is a run-time panic. *)
Definition array_index (arr : list string) (i : Z) : outcome string :=
  if (0 <=? i) && (i <? Z.of_nat (length arr)) then
    match arr !! Z.to_nat i with
    | Some s => Done s
    | None => GoPanic "index out of range"
    end
  else GoPanic "index out of range".

Definition levelNames : list string :=
  [""; "panic"; "fatal"; "error"; "warn"; "info"; "debug"].

Definition Level_String (lvl : Level) : outcome string :=
  array_index levelNames lvl.

Definition levelNamesText : list string :=
  [""; " PANIC "; " FATAL "; " ERROR "; " WARN "; " INFO "; " DEBUG "].

(** ** The world outside the package *)

Class GoRuntime : Type := {
  (* fmt.Sprint *)
  Sprint : list value -> string;
  (* fmt.Sprintln without the newline it always appends *)
  Sprintln_operands : list value -> string;
  (* fmt.Sprintf *)
  Sprintf : string -> list value -> string;
  (* time.Time.Format *)
  time_Format : Z -> string -> string;
  (* strings.TrimSpace *)
  TrimSpace : string -> string;
  (* json.Marshal on a map: the encoding, or the error's text; a panic of
     a MarshalJSON method, which json.Marshal passes on, has no counterpart *)
  json_Marshal : gmap string value -> string + string;
  (* the order in which a [range] loop visits a map; Go leaves it open *)
  map_range : gmap string value -> list (string * value);
  map_range_perm : forall m, map_range m ≡ₚ map_to_list m
}.

Definition Sprintln `{GoRuntime} (v : list value) : string :=
  Sprintln_operands v +:+ newline.

(** ** Entries, the logger and the heap of maps *)

Abbreviation loc := nat (only parsing).

Record entry : Type := mkEntry {
  ts : Z;
  elevel : Level;
  format : string;
  args : list value;
  fields : option loc;
  ln : bool
}.

Inductive encoder : Type := writeTextFn | writeJSONFn.

(** The struct [logger], its writer as the list of the writes received, and
    with it the two parts of the world its methods act on: the maps and the
    standard output. *)
Record logger : Type := mkLogger {
  buf : string;
  entChan : list entry;        (* buffered entries, oldest first *)
  entChan_closed : bool;
  doneChan_closed : bool;
  writeFunc : encoder;
  out : list string;           (* the Write calls the io.Writer received *)
  level : Level;
  tsLayout : string;
  prefix : string;
  heap : list (gmap string value);   (* every map allocated so far *)
  stdout : list string               (* what fmt.Println printed *)
}.

Definition entChan_cap : nat := 64.

Definition set_buf (x : string) (a : logger) : logger :=
  mkLogger x (entChan a) (entChan_closed a) (doneChan_closed a) (writeFunc a)
    (out a) (level a) (tsLayout a) (prefix a) (heap a) (stdout a).
Definition set_entChan (x : list entry) (a : logger) : logger :=
  mkLogger (buf a) x (entChan_closed a) (doneChan_closed a) (writeFunc a)
    (out a) (level a) (tsLayout a) (prefix a) (heap a) (stdout a).
Definition set_entChan_closed (x : bool) (a : logger) : logger :=
  mkLogger (buf a) (entChan a) x (doneChan_closed a) (writeFunc a)
    (out a) (level a) (tsLayout a) (prefix a) (heap a) (stdout a).
Definition set_doneChan_closed (x : bool) (a : logger) : logger :=
  mkLogger (buf a) (entChan a) (entChan_closed a) x (writeFunc a)
    (out a) (level a) (tsLayout a) (prefix a) (heap a) (stdout a).
Definition set_writeFunc (x : encoder) (a : logger) : logger :=
  mkLogger (buf a) (entChan a) (entChan_closed a) (doneChan_closed a) x
    (out a) (level a) (tsLayout a) (prefix a) (heap a) (stdout a).
Definition set_out (x : list string) (a : logger) : logger :=
  mkLogger (buf a) (entChan a) (entChan_closed a) (doneChan_closed a)
    (writeFunc a) x (level a) (tsLayout a) (prefix a) (heap a) (stdout a).
Definition set_prefix (x : string) (a : logger) : logger :=
  mkLogger (buf a) (entChan a) (entChan_closed a) (doneChan_closed a)
    (writeFunc a) (out a) (level a) (tsLayout a) x (heap a) (stdout a).
Definition set_heap (x : list (gmap string value)) (a : logger) : logger :=
  mkLogger (buf a) (entChan a) (entChan_closed a) (doneChan_closed a)
    (writeFunc a) (out a) (level a) (tsLayout a) (prefix a) x (stdout a).
Definition set_stdout (x : list string) (a : logger) : logger :=
  mkLogger (buf a) (entChan a) (entChan_closed a) (doneChan_closed a)
    (writeFunc a) (out a) (level a) (tsLayout a) (prefix a) (heap a) x.

(** ** The monad of Go code acting on a logger

    A computation takes the logger (with the heap and the standard output)
    and gives its outcome together with the state it leaves behind, also
    when it panics or exits. *)

Definition go (A : Type) : Type := logger -> outcome A * logger.

#[global] Instance go_ret : MRet go := fun A x a => (Done x, a).

#[global] Instance go_bind : MBind go := fun A B k m a =>
  match m a with
  | (Done x, a') => k x a'
  | (GoPanic p, a') => (GoPanic p, a')
  | (OsExit c, a') => (OsExit c, a')
  | (Blocked, a') => (Blocked, a')
  end.

Definition get : go logger := fun a => (Done a, a).
Definition modify (f : logger -> logger) : go unit := fun a => (Done tt, f a).
Definition lift {A} (r : outcome A) : go A := fun a => (r, a).
Definition panic {A} (payload : string) : go A := lift (GoPanic payload).
Definition os_Exit {A} (code : Z) : go A := lift (OsExit code).
Definition when (b : bool) (m : go unit) : go unit := if b then m else mret tt.

(** [for _, x := range l { body x }] *)
Fixpoint for_each {A} (l : list A) (body : A -> go unit) : go unit :=
  match l with
  | [] => mret tt
  | x :: l => body x ;; for_each l body
  end.

(** ** Maps on the heap *)

(** The contents a [Fields] value denotes; a nil map reads as empty. *)
Definition deref (hp : list (gmap string value)) (f : option loc)
    : gmap string value :=
  match f with
  | None => ∅
  | Some l => default ∅ (hp !! l)
  end.

(** [make(Fields, n)] *)
Definition make_map : go loc := fun a =>
  (Done (length (heap a)), set_heap (heap a ++ [∅]) a).

(** [m[k] = v] *)
Definition map_store (l : loc) (k : string) (v : value) : go unit :=
  modify (fun a => set_heap (alter (insert k v) l (heap a)) a).

(** [v, ok := m[k]] *)
Definition map_load (f : option loc) (k : string) : go (option value) :=
  a ← get; mret (deref (heap a) f !! k).

Section Engine.
Context `{RT : GoRuntime}.

(** the key-value pairs a [range] over the map visits, fixed when the loop
    starts; the loops of this package only overwrite keys they visit *)
Definition range_map (f : option loc) : go (list (string * value)) :=
  a ← get; mret (map_range (deref (heap a) f)).

(** ** Construction *)

Definition defaultTimeLayout : string := "Jan 02 15:04:05".

(** [hp] holds the maps of the caller that exist when the logger is made.
    The writer is the list [out] of the writes it receives, so the default
    [os.Stdout] for a nil writer has no counterpart; [writeFunc], which the
    source leaves unset until [NewText] or [NewJSON] assigns it, starts as
    the text encoder.  The finalizer that closes the channel of a logger
    the program has dropped is outside the model. *)
Definition newLogger (hp : list (gmap string value))
    (lvl : Level) (timeLayout : string) : logger :=
  let timeLayout :=
    if String.eqb timeLayout "" then defaultTimeLayout
    else TrimSpace timeLayout in
  let lvl :=
    if lvl <? NoLevel then NoLevel
    else if lvl >? DebugLevel then DebugLevel
    else lvl in
  {| buf := ""; entChan := []; entChan_closed := false;
     doneChan_closed := false; writeFunc := writeTextFn; out := [];
     level := lvl; tsLayout := timeLayout; prefix := "";
     heap := hp; stdout := [] |}.

Definition NewText (hp : list (gmap string value))
    (lvl : Level) (timeLayout pfx : string) : logger :=
  let a := newLogger hp lvl timeLayout in
  let a := set_writeFunc writeTextFn a in
  set_prefix pfx a.

Definition NewJSON (hp : list (gmap string value))
    (lvl : Level) (timeLayout : string) : logger :=
  let a := newLogger hp lvl timeLayout in
  set_writeFunc writeJSONFn a.

(** ** The level policy *)

Definition LogableAt (a : logger) (lvl : Level) : bool :=
  if negb (level a =? NoLevel) && (level a <? lvl) then false
  else true.

(** ** The text encoder *)

(** [a.buf = append(a.buf, s...)] *)
Definition buf_append (s : string) : go unit :=
  modify (fun a => set_buf (buf a +:+ s) a).

(** [a.buf = a.buf[:n]] for [n] up to the length *)
Definition buf_slice_to (n : Z) : go unit := fun a =>
  if (n <? 0) || (Z.of_nat (String.length (buf a)) <? n)
  then (GoPanic "slice bounds out of range", a)
  else (Done tt, set_buf (String.substring 0 (Z.to_nat n) (buf a)) a).

Definition writeText (ent : entry) : go unit :=
  modify (set_buf "") ;;
  a ← get;
  when (negb (prefix a =? "")%string) (buf_append (prefix a)) ;;
  when (negb (tsLayout a =? "")%string)
    (buf_append (time_Format (ts ent) (tsLayout a))) ;;
  (if negb (level a =? NoLevel) && negb (elevel ent =? NoLevel) then
     lbl ← lift (array_index levelNamesText (elevel ent));
     buf_append lbl
   else buf_append " ") ;;
  (if negb (format ent =? "")%string then
     buf_append (Sprintf (format ent) (args ent))
   else if ln ent then
     buf_append (Sprintln (args ent)) ;;
     b ← get;
     buf_slice_to (Z.of_nat (String.length (buf b)) - 1)
   else buf_append (Sprint (args ent))) ;;
  kvs ← range_map (fields ent);
  for_each kvs (fun kv =>
    buf_append " (" ;;
    buf_append kv.1 ;;
    buf_append "=" ;;
    buf_append (Sprint [kv.2]) ;;
    buf_append ")") ;;
  buf_append newline ;;
  b ← get;
  modify (set_out (out b ++ [buf b])).

(** ** The JSON encoder *)

Definition ErrorField : string := "error".
Definition levelField : string := "level".
Definition extLevelField : string := "fields.level".
Definition msgField : string := "msg".
Definition extMsgField : string := "fields.msg".
Definition timeField : string := "time".
Definition extTimeField : string := "fields.time".

(** [if v, ok := m[key]; ok { m[ext] = v }] *)
Definition keep_under (l : loc) (key ext : string) : go unit :=
  r ← map_load (Some l) key;
  match r with
  | Some v => map_store l ext v
  | None => mret tt
  end.

Definition writeJSON (ent : entry) : go unit :=
  l ← match fields ent with
      | None => make_map
      | Some l => mret l
      end;
  kvs ← range_map (Some l);
  for_each kvs (fun kv =>
    match as_error kv.2 with
    | Some msg => map_store l kv.1 (VStr msg)
    | None => mret tt
    end) ;;
  a ← get;
  when (negb (tsLayout a =? "")%string)
    (keep_under l timeField extTimeField ;;
     map_store l timeField (VStr (time_Format (ts ent) (tsLayout a)))) ;;
  when (negb (level a =? NoLevel) && negb (elevel ent =? NoLevel))
    (keep_under l levelField extLevelField ;;
     name ← lift (Level_String (elevel ent));
     map_store l levelField (VStr name)) ;;
  (if negb (format ent =? "")%string then
     keep_under l msgField extMsgField ;;
     map_store l msgField (VStr (Sprintf (format ent) (args ent)))
   else
     keep_under l msgField extMsgField ;;
     map_store l msgField (VStr (Sprint (args ent)))) ;;
  b ← get;
  match json_Marshal (deref (heap b) (Some l)) with
  | inr err =>
      modify (fun b => set_stdout (stdout b ++
        [Sprintln [VStr "Failed to marshal fields to JSON:"; VErr err]]) b)
  | inl encoded =>
      modify (fun b => set_out (out b ++ [encoded +:+ newline]) b)
  end.

(** ** The channel, the consumer and Close *)

(** [a.entChan <- ent] *)
Definition chan_send (ent : entry) : go unit := fun a =>
  if entChan_closed a then (GoPanic "send on closed channel", a)
  else if (length (entChan a) <? entChan_cap)%nat
  then (Done tt, set_entChan (entChan a ++ [ent]) a)
  else (Blocked, a).

(** one receive of [for ent := range a.entChan]: an entry, or the end of
    the loop once the channel is closed and empty *)
Definition chan_recv : go (option entry) := fun a =>
  match entChan a with
  | ent :: rest => (Done (Some ent), set_entChan rest a)
  | [] => if entChan_closed a then (Done None, a) else (Blocked, a)
  end.

Definition close_entChan : go unit := fun a =>
  if entChan_closed a then (GoPanic "close of closed channel", a)
  else (Done tt, set_entChan_closed true a).

Definition close_doneChan : go unit := fun a =>
  if doneChan_closed a then (GoPanic "close of closed channel", a)
  else (Done tt, set_doneChan_closed true a).

Definition call_writeFunc (ent : entry) : go unit :=
  a ← get;
  match writeFunc a with
  | writeTextFn => writeText ent
  | writeJSONFn => writeJSON ent
  end.

(** One turn of the goroutine [run]: an iteration of its loop, or leaving
    the loop and closing [doneChan].  After that the goroutine is gone. *)
Definition run_step : go unit :=
  a ← get;
  if doneChan_closed a then lift Blocked
  else
    r ← chan_recv;
    match r with
    | Some ent => call_writeFunc ent
    | None => close_doneChan
    end.

(** [<-a.doneChan]: the caller is parked and the consumer takes its turns
    until [doneChan] is closed. *)
Fixpoint await_doneChan (turns : nat) : go unit :=
  a ← get;
  if doneChan_closed a then mret tt
  else
    match turns with
    | O => lift Blocked
    | S n => run_step ;; await_doneChan n
    end.

Definition Close : go unit :=
  close_entChan ;;
  a ← get;
  await_doneChan (S (length (entChan a))).

(** ** Producers: the methods of [*logger] and [*fieldLogger]

    A [handle] is a [Logger]: the engine itself, or a [fieldLogger] with its
    [fields].  Every method takes the reading of [time.Now()] as [now]. *)

Inductive handle : Type :=
| Base                        (* *logger *)
| Scoped (f : option loc).    (* *fieldLogger{logger, fields: f} *)

(** the [fields] a method of the handle puts in its entries: [nil] for
    [*logger], [f.fields] for [*fieldLogger] *)
Definition hfields (h : handle) : option loc :=
  match h with
  | Base => None
  | Scoped f => f
  end.

Definition Print (h : handle) (now : Z) (v : list value) : go unit :=
  chan_send {| ts := now; elevel := NoLevel; format := ""; args := v;
               fields := hfields h; ln := false |}.

Definition Println (h : handle) (now : Z) (v : list value) : go unit :=
  chan_send {| ts := now; elevel := NoLevel; format := ""; args := v;
               fields := hfields h; ln := true |}.

Definition Printf (h : handle) (now : Z) (fmt : string) (v : list value)
    : go unit :=
  chan_send {| ts := now; elevel := NoLevel; format := fmt; args := v;
               fields := hfields h; ln := false |}.

Definition log (flds : option loc) (lvl : Level) (now : Z) (v : list value)
    : go unit :=
  a ← get;
  if negb (LogableAt a lvl) then mret tt
  else chan_send {| ts := now; elevel := lvl; format := ""; args := v;
                    fields := flds; ln := false |}.

Definition logln (flds : option loc) (lvl : Level) (now : Z) (v : list value)
    : go unit :=
  a ← get;
  if negb (LogableAt a lvl) then mret tt
  else chan_send {| ts := now; elevel := lvl; format := ""; args := v;
                    fields := flds; ln := true |}.

Definition logf (flds : option loc) (lvl : Level) (now : Z) (fmt : string)
    (v : list value) : go unit :=
  a ← get;
  if negb (LogableAt a lvl) then mret tt
  else chan_send {| ts := now; elevel := lvl; format := fmt; args := v;
                    fields := flds; ln := false |}.

Definition Panic (h : handle) (now : Z) (v : list value) : go unit :=
  log (hfields h) PanicLevel now v ;;
  Close ;;
  panic (Sprint v).

Definition Panicln (h : handle) (now : Z) (v : list value) : go unit :=
  logln (hfields h) PanicLevel now v ;;
  Close ;;
  panic (Sprint v).

Definition Panicf (h : handle) (now : Z) (fmt : string) (v : list value)
    : go unit :=
  logf (hfields h) PanicLevel now fmt v ;;
  Close ;;
  panic (Sprintf fmt v).

Definition Fatal (h : handle) (now : Z) (v : list value) : go unit :=
  log (hfields h) FatalLevel now v ;;
  Close ;;
  os_Exit 1.

Definition Fatalln (h : handle) (now : Z) (v : list value) : go unit :=
  logln (hfields h) FatalLevel now v ;;
  Close ;;
  os_Exit 1.

Definition Fatalf (h : handle) (now : Z) (fmt : string) (v : list value)
    : go unit :=
  logf (hfields h) FatalLevel now fmt v ;;
  Close ;;
  os_Exit 1.

Definition Error (h : handle) (now : Z) (v : list value) : go unit :=
  log (hfields h) ErrorLevel now v.
Definition Errorln (h : handle) (now : Z) (v : list value) : go unit :=
  logln (hfields h) ErrorLevel now v.
Definition Errorf (h : handle) (now : Z) (fmt : string) (v : list value)
    : go unit :=
  logf (hfields h) ErrorLevel now fmt v.

Definition Warn (h : handle) (now : Z) (v : list value) : go unit :=
  log (hfields h) WarnLevel now v.
Definition Warnln (h : handle) (now : Z) (v : list value) : go unit :=
  logln (hfields h) WarnLevel now v.
Definition Warnf (h : handle) (now : Z) (fmt : string) (v : list value)
    : go unit :=
  logf (hfields h) WarnLevel now fmt v.

Definition Info (h : handle) (now : Z) (v : list value) : go unit :=
  log (hfields h) InfoLevel now v.
Definition Infoln (h : handle) (now : Z) (v : list value) : go unit :=
  logln (hfields h) InfoLevel now v.
Definition Infof (h : handle) (now : Z) (fmt : string) (v : list value)
    : go unit :=
  logf (hfields h) InfoLevel now fmt v.

Definition Debug (h : handle) (now : Z) (v : list value) : go unit :=
  log (hfields h) DebugLevel now v.
Definition Debugln (h : handle) (now : Z) (v : list value) : go unit :=
  logln (hfields h) DebugLevel now v.
Definition Debugf (h : handle) (now : Z) (fmt : string) (v : list value)
    : go unit :=
  logf (hfields h) DebugLevel now fmt v.

(** [WithFields] of [*logger]: the new [fieldLogger] holds the caller's map. *)
Definition logger_WithFields (flds : option loc) : go handle :=
  mret (Scoped flds).

(** [WithFields] of [*fieldLogger]: a new map, the parent's fields copied
    first, then the given ones. *)
Definition fieldLogger_WithFields (f : option loc) (flds : option loc)
    : go handle :=
  newFields ← make_map;
  kvs ← range_map f;
  for_each kvs (fun kv => map_store newFields kv.1 kv.2) ;;
  kvs ← range_map flds;
  for_each kvs (fun kv => map_store newFields kv.1 kv.2) ;;
  mret (Scoped (Some newFields)).

Definition WithFields (h : handle) (flds : option loc) : go handle :=
  match h with
  | Base => logger_WithFields flds
  | Scoped f => fieldLogger_WithFields f flds
  end.

(** [WithField(key, value)] is [WithFields(Fields{key: value})]; the map
    literal allocates. *)
Definition WithField (h : handle) (key : string) (v : value) : go handle :=
  l ← make_map;
  map_store l key v ;;
  WithFields h (Some l).

End Engine.

(** ** A small runtime to run the model on

    On the inputs used below (string and integer operands, formats without
    verbs, keys and strings without characters that JSON escapes) these
    functions give what the Go library gives. *)

Definition dquote : string := String (Ascii.ascii_of_nat 34) "".

Definition show (v : value) : string :=
  match v with
  | VStr s => s
  | VInt n => pretty n
  | VErr msg => msg
  | VOther tag => "0x" +:+ pretty tag
  end.

Definition is_string (v : value) : bool :=
  match v with VStr _ => true | _ => false end.

(** fmt.Sprint: a space between two operands when neither is a string *)
Fixpoint small_Sprint (vs : list value) : string :=
  match vs with
  | [] => ""
  | v :: rest =>
      match rest with
      | [] => show v
      | w :: _ =>
          show v +:+ (if is_string v || is_string w then "" else " ")
          +:+ small_Sprint rest
      end
  end.

(** fmt.Sprintln: a space between any two operands *)
Fixpoint small_Sprintln_operands (vs : list value) : string :=
  match vs with
  | [] => ""
  | v :: rest =>
      match rest with
      | [] => show v
      | _ :: _ => show v +:+ " " +:+ small_Sprintln_operands rest
      end
  end.

(** fmt.Sprintf for a format without verbs and no operands *)
Definition small_Sprintf (fmt : string) (vs : list value) : string := fmt.

Definition small_Format (t : Z) (layout : string) : string := layout.

Definition is_space (c : Ascii.ascii) : bool :=
  let n := Ascii.nat_of_ascii c in
  ((9 <=? n) && (n <=? 13) || (n =? 32))%nat.

Fixpoint trim_left (s : string) : string :=
  match s with
  | String c s' => if is_space c then trim_left s' else s
  | EmptyString => EmptyString
  end.

Fixpoint trim_right (s : string) : string :=
  match s with
  | String c s' =>
      let r := trim_right s' in
      if is_space c && (r =? "")%string then "" else String c r
  | EmptyString => EmptyString
  end.

Definition small_TrimSpace (s : string) : string := trim_right (trim_left s).

Definition json_value (v : value) : option string :=
  match v with
  | VStr s => Some (dquote +:+ s +:+ dquote)
  | VInt n => Some (pretty n)
  | VErr _ => Some "{}"
  | VOther _ => None
  end.

Fixpoint json_members (kvs : list (string * value)) : option string :=
  match kvs with
  | [] => Some ""
  | (k, v) :: rest =>
      jv ← json_value v;
      js ← json_members rest;
      Some (dquote +:+ k +:+ dquote +:+ ":" +:+ jv +:+
            match rest with [] => "" | _ => "," +:+ js end)
  end.

Definition key_le (x y : string * value) : Prop :=
  String.leb x.1 y.1 = true.

#[global] Instance key_le_dec : RelDecision key_le.
Proof. intros x y. unfold key_le. apply _. Defined.

(** json.Marshal of a map: keys sorted; a value it does not support (the
    [VOther] of the examples stands for a channel of int) is an error *)
Definition small_Marshal (m : gmap string value) : string + string :=
  match json_members (merge_sort key_le (map_to_list m)) with
  | Some js => inl ("{" +:+ js +:+ "}")
  | None => inr "json: unsupported type: chan int"
  end.

#[global] Program Instance small_runtime : GoRuntime := {|
  Sprint := small_Sprint;
  Sprintln_operands := small_Sprintln_operands;
  Sprintf := small_Sprintf;
  time_Format := small_Format;
  TrimSpace := small_TrimSpace;
  json_Marshal := small_Marshal;
  map_range := fun m => merge_sort key_le (map_to_list m)
|}.
Next Obligation. intros m. apply merge_sort_Permutation. Qed.

(** ** Programs: calls of producers interleaved with turns of the consumer *)

Section Programs.
Context `{RT : GoRuntime}.

Inductive family : Type :=
| FPrint | FPanic | FFatal | FError | FWarn | FInfo | FDebug.

Inductive mode : Type := plain | line | formatted.

(** The twenty-one logging methods of the interface [Logger]. *)
Definition call (fam : family) (md : mode) (h : handle) (now : Z)
    (fmt : string) (v : list value) : go unit :=
  match fam, md with
  | FPrint, plain => Print h now v
  | FPrint, line => Println h now v
  | FPrint, formatted => Printf h now fmt v
  | FPanic, plain => Panic h now v
  | FPanic, line => Panicln h now v
  | FPanic, formatted => Panicf h now fmt v
  | FFatal, plain => Fatal h now v
  | FFatal, line => Fatalln h now v
  | FFatal, formatted => Fatalf h now fmt v
  | FError, plain => Error h now v
  | FError, line => Errorln h now v
  | FError, formatted => Errorf h now fmt v
  | FWarn, plain => Warn h now v
  | FWarn, line => Warnln h now v
  | FWarn, formatted => Warnf h now fmt v
  | FInfo, plain => Info h now v
  | FInfo, line => Infoln h now v
  | FInfo, formatted => Infof h now fmt v
  | FDebug, plain => Debug h now v
  | FDebug, line => Debugln h now v
  | FDebug, formatted => Debugf h now fmt v
  end.

(** A map literal of the caller, [Fields{...}] with contents [m]. *)
Definition new_fields (m : gmap string value) : go loc := fun a =>
  (Done (length (heap a)), set_heap (heap a ++ [m]) a).

Inductive op : Type :=
| Call (fam : family) (md : mode) (h : handle) (now : Z) (fmt : string)
    (v : list value)
| DoWithFields (h : handle) (flds : option loc)
| DoWithField (h : handle) (key : string) (v : value)
| NewFields (m : gmap string value)
| DoClose
| Turn.                       (* the goroutine [run] takes a turn *)

Definition exec (o : op) : go unit :=
  match o with
  | Call fam md h now fmt v => call fam md h now fmt v
  | DoWithFields h flds => WithFields h flds ;; mret tt
  | DoWithField h key v => WithField h key v ;; mret tt
  | NewFields m => new_fields m ;; mret tt
  | DoClose => Close
  | Turn => run_step
  end.

(** A program stops at the first operation that does not return. *)
Definition exec_all (ops : list op) : go unit := for_each ops exec.

End Programs.

(** ** Well-formed entries and references *)

Definition entry_ok (hp : list (gmap string value)) (e : entry) : Prop :=
  NoLevel <= elevel e <= DebugLevel /\
  match fields e with
  | Some l => (l < length hp)%nat
  | None => True
  end.

(** ** Names of the levels, as the specification lists them *)

Definition level_name (lvl : Level) : string :=
  if lvl =? PanicLevel then "panic"
  else if lvl =? FatalLevel then "fatal"
  else if lvl =? ErrorLevel then "error"
  else if lvl =? WarnLevel then "warn"
  else if lvl =? InfoLevel then "info"
  else if lvl =? DebugLevel then "debug"
  else "".

(** ** Merging field mappings, as the specification words it *)

(** [merge_fields A B] holds the keys of both; on a key of both, the value
    of [B] shadows the value of [A]. *)
Definition merge_fields (A B : gmap string value) : gmap string value :=
  B ∪ A.

(** A [Fields] value that is nil or refers to a map that exists. *)
Definition fields_valid (hp : list (gmap string value)) (f : option loc)
    : Prop :=
  match f with
  | Some l => (l < length hp)%nat
  | None => True
  end.

(** ** What the encoders are expected to produce *)

Section Lines.
Context `{RT : GoRuntime}.

(** The padded label of a severity, as the specification lists them. *)
Definition severity_label (lvl : Level) : string :=
  if lvl =? PanicLevel then " PANIC "
  else if lvl =? FatalLevel then " FATAL "
  else if lvl =? ErrorLevel then " ERROR "
  else if lvl =? WarnLevel then " WARN "
  else if lvl =? InfoLevel then " INFO "
  else if lvl =? DebugLevel then " DEBUG "
  else "".

(** The message of an entry: the format applied to the arguments when there
    is a format, the arguments joined as Println joins them (without its
    newline) for a line-mode entry, and as Print joins them otherwise. *)
Definition rendered (ent : entry) : string :=
  if negb (format ent =? "")%string then Sprintf (format ent) (args ent)
  else if ln ent then Sprintln_operands (args ent)
  else Sprint (args ent).

Definition field_text (kv : string * value) : string :=
  " (" +:+ kv.1 +:+ "=" +:+ Sprint [kv.2] +:+ ")".

Definition fields_text (kvs : list (string * value)) : string :=
  foldr (fun kv acc => field_text kv +:+ acc) "" kvs.

Definition leveled (a : logger) (ent : entry) : bool :=
  negb (level a =? NoLevel) && negb (elevel ent =? NoLevel).

Definition text_line (a : logger) (ent : entry) : string :=
  prefix a +:+
  (if (tsLayout a =? "")%string then ""
   else time_Format (ts ent) (tsLayout a)) +:+
  (if leveled a ent then severity_label (elevel ent) else " ") +:+
  rendered ent +:+
  fields_text (map_range (deref (heap a) (fields ent))) +:+
  newline.

(** An error value is replaced by its message. *)
Definition stringify (v : value) : value :=
  match as_error v with
  | Some msg => VStr msg
  | None => v
  end.

(** Put [v] under the reserved [key]; what was there moves to [ext]. *)
Definition reserve (key ext : string) (v : value) (m : gmap string value)
    : gmap string value :=
  <[key := v]> (match m !! key with
                | Some old => <[ext := old]> m
                | None => m
                end).

(** The object handed to json.Marshal for an entry whose map holds [m]. *)
Definition json_object (a : logger) (ent : entry) (m : gmap string value)
    : gmap string value :=
  let m := stringify <$> m in
  let m := if (tsLayout a =? "")%string then m
           else reserve timeField extTimeField
                  (VStr (time_Format (ts ent) (tsLayout a))) m in
  let m := if leveled a ent
           then reserve levelField extLevelField
                  (VStr (level_name (elevel ent))) m
           else m in
  reserve msgField extMsgField
    (VStr (if negb (format ent =? "")%string
           then Sprintf (format ent) (args ent)
           else Sprint (args ent))) m.

(** The state [writeJSON] leaves: the map of the entry (a new one when the
    entry has none) holds the object, and either the sink received the
    encoding and a newline or the standard output received a diagnostic. *)
Definition after_writeJSON (a : logger) (ent : entry) : logger :=
  let l := match fields ent with Some l => l | None => length (heap a) end in
  let hp := match fields ent with
            | Some _ => heap a
            | None => (heap a ++ [∅])%list
            end in
  let obj := json_object a ent (deref (heap a) (fields ent)) in
  let a' := set_heap (<[l := obj]> hp) a in
  match json_Marshal obj with
  | inl encoded => set_out (out a ++ [encoded +:+ newline]) a'
  | inr err =>
      set_stdout (stdout a ++
        [Sprintln [VStr "Failed to marshal fields to JSON:"; VErr err]]) a'
  end.

End Lines.

(** ** What a program enqueues *)

Section Enqueued.
Context `{RT : GoRuntime}.

Definition family_level (fam : family) : Level :=
  match fam with
  | FPrint => NoLevel
  | FPanic => PanicLevel
  | FFatal => FatalLevel
  | FError => ErrorLevel
  | FWarn => WarnLevel
  | FInfo => InfoLevel
  | FDebug => DebugLevel
  end.

(** The entry a logging call builds. *)
Definition entry_of (fam : family) (md : mode) (h : handle) (now : Z)
    (fmt : string) (v : list value) : entry :=
  {| ts := now; elevel := family_level fam;
     format := match md with formatted => fmt | _ => "" end;
     args := v; fields := hfields h;
     ln := match md with line => true | _ => false end |}.

(** The Print family is not filtered; the others ask [LogableAt]. *)
Definition admitted (a : logger) (fam : family) : bool :=
  match fam with
  | FPrint => true
  | _ => LogableAt a (family_level fam)
  end.

Definition enqueues (a : logger) (o : op) : list entry :=
  match o with
  | Call fam md h now fmt v =>
      if admitted a fam then [entry_of fam md h now fmt v] else []
  | _ => []
  end.

(** The entries a program enqueues, in the order of its calls. *)
Definition enqueued (a : logger) (ops : list op) : list entry :=
  flat_map (enqueues a) ops.



(** The sink accounts for the entries sent so far: with the text encoder
    the lines written followed by the lines of the pending entries are the
    lines of the entries sent; with the JSON encoder every entry sent is
    pending, or has given one write to the sink, or one diagnostic. *)
Definition accounts (sent : list entry) (a : logger) : Prop :=
  match writeFunc a with
  | writeTextFn =>
      out a ++ (text_line a <$> entChan a) = text_line a <$> sent
  | writeJSONFn =>
      (length (out a) + length (stdout a) + length (entChan a)
       = length sent)%nat
  end.

(** The engine is running: the consumer is alive, the channel is open, and
    the entries sent and pending are well formed. *)
Definition running (sent : list entry) (a : logger) : Prop :=
  doneChan_closed a = false /\
  entChan_closed a = false /\
  Forall (entry_ok (heap a)) sent /\
  Forall (entry_ok (heap a)) (entChan a) /\
  accounts sent a.

End Enqueued.

(** ** Relations between the state before and after a computation *)

(** [keeps P m]: whatever the outcome of [m], the state it leaves is
    related by [P] to the state it started from. *)
Definition keeps {A} (P : logger -> logger -> Prop) (m : go A) : Prop :=
  forall a, P a (m a).2.

(** The configuration of the engine is the same. *)
Definition same_config (a b : logger) : Prop :=
  level b = level a /\ tsLayout b = tsLayout a /\ prefix b = prefix a /\
  writeFunc b = writeFunc a.

(** What no step undoes: the configuration stays, a closed channel stays
    closed, and no map is ever freed. *)
Definition stable (a b : logger) : Prop :=
  same_config a b /\
  (entChan_closed a = true -> entChan_closed b = true) /\
  (doneChan_closed a = true -> doneChan_closed b = true) /\
  (length (heap a) <= length (heap b))%nat.

(** On an engine with the text encoder: the encoder stays, and every map
    that exists keeps its contents. *)
Definition text_frame (a b : logger) : Prop :=
  writeFunc a = writeTextFn ->
  writeFunc b = writeTextFn /\
  forall l m, heap a !! l = Some m -> heap b !! l = Some m.

(** ** Engines, maps and entries of the examples *)

Definition foo_bar : gmap string value := {[ "foo" := VStr "bar" ]}.
Definition level_custom : gmap string value := {[ "level" := VStr "custom" ]}.
Definition level_boom : gmap string value := {[ "level" := VErr "boom" ]}.
Definition has_chan : gmap string value := {[ "ch" := VOther 0 ]}.
Definition july : gmap string value := {[ "July" := VInt 7 ]}.
Definition foo_baz : gmap string value := {[ "foo" := VStr "baz" ]}.

(** [NewText(buf, WarnLevel, " ", "pfx ")] with one map of the caller *)
Definition text_warn : logger := NewText [foo_bar] WarnLevel " " "pfx ".

(** [NewText(buf, DebugLevel, " ", "")] *)
Definition text_debug : logger := NewText [foo_bar] DebugLevel " " "".

(** [NewJSON(buf, DebugLevel, " ")] with the maps of the caller *)
Definition json_debug : logger :=
  NewJSON [foo_bar; level_custom; level_boom; has_chan] DebugLevel " ".

Definition info_entry (f : option loc) (msg : string) : entry :=
  {| ts := 0; elevel := InfoLevel; format := ""; args := [VStr msg];
     fields := f; ln := false |}.

(** Programs of the examples *)


Definition two_prints : list op :=
  [Call FPrint plain (Scoped (Some 0%nat)) 1 "" [VStr "a"];
   Call FPrint plain (Scoped (Some 0%nat)) 2 "" [VStr "b"];
   Turn].

Section Trace.
Context `{RT : GoRuntime}.

(** The keys the JSON encoder writes. *)
Definition reserved_keys : list string :=
  [msgField; extMsgField; timeField; extTimeField; levelField; extLevelField].

(** Two maps hold the same fields of the user: under every key that is not
    reserved they hold the same value, an error value counting as its
    message. *)
Definition same_user_fields (m m' : gmap string value) : Prop :=
  forall k, k ∉ reserved_keys ->
    stringify <$> (m !! k) = stringify <$> (m' !! k).






(** No map is freed, and every map that exists keeps the fields of the
    user. *)
Definition user_step (a b : logger) : Prop :=
  (length (heap a) <= length (heap b))%nat /\
  forall l, (l < length (heap a))%nat ->
    same_user_fields (deref (heap b) (Some l)) (deref (heap a) (Some l)).

End Trace.

(** A string between double quotes. *)
Definition quoted (s : string) : string := dquote +:+ s +:+ dquote.

(** A scoped logger logs at Info and then prints; the engine prints the
    same message. *)
Definition info_then_print : list op :=
  [Call FInfo plain (Scoped (Some 0%nat)) 1 "" [VStr "first"];
   Turn;
   Call FPrint plain (Scoped (Some 0%nat)) 2 "" [VStr "second"];
   Turn;
   Call FPrint plain Base 3 "" [VStr "second"];
   Turn].


(** ** [WithError], a method of the engine only

    [Fields{ErrorField: err}] for an error with message [msg], handed to
    [WithFields] of the engine.  A [fieldLogger] embeds the engine and has no
    [WithError] of its own: called on a scoped logger the method is the
    engine's, its receiver is the embedded engine, and the fields of the
    scoped logger play no part. *)
Definition WithError (h : handle) (msg : string) : go handle :=
  l ← make_map;
  map_store l ErrorField (VErr msg) ;;
  logger_WithFields (Some l).

(** ** What holds of the channel in every state a program reaches *)

Definition level_ok (e : entry) : Prop := NoLevel <= elevel e <= DebugLevel.

(** The queue holds no more than the capacity of the channel; the consumer
    has left only if the channel is closed and empty; every entry in the
    queue carries one of the seven levels. *)
Definition chan_inv (a : logger) : Prop :=
  (length (entChan a) <= entChan_cap)%nat /\
  (doneChan_closed a = true -> entChan_closed a = true /\ entChan a = []) /\
  Forall level_ok (entChan a).

Definition inv_step (a b : logger) : Prop := chan_inv a -> chan_inv b.

(** The channels are as they were. *)
Definition same_channel (a b : logger) : Prop :=
  entChan b = entChan a /\ entChan_closed b = entChan_closed a /\
  doneChan_closed b = doneChan_closed a.

(** The call to [log], [logln] or [logf] that a leveled method makes. *)
Definition leveled_call (fam : family) (md : mode) (h : handle) (now : Z)
    (fmt : string) (v : list value) : go unit :=
  match md with
  | plain => log (hfields h) (family_level fam) now v
  | line => logln (hfields h) (family_level fam) now v
  | formatted => logf (hfields h) (family_level fam) now fmt v
  end.

(** The outcome of a call made once the channel is closed. *)
Definition on_closed_channel (a : logger) (fam : family) : outcome unit :=
  if admitted a fam then GoPanic "send on closed channel"
  else match fam with
       | FPanic | FFatal => GoPanic "close of closed channel"
       | _ => Done tt
       end.

(** A full queue of one entry, with the lines of its entries not yet
    written. *)
Definition full_queue (a : logger) (e : entry) : logger :=
  set_entChan (replicate entChan_cap e) a.

(** ** The first logger: [Logger], without levels and fields

    The package as it was before levels and fields: one struct [Logger]
    with its nine methods.  Its channel is never closed; [Close] sends a
    nil entry instead, at which the consumer leaves its loop. *)

Module Legacy.

Record entry : Type := mkEntry {
  ts : Z;
  format : string;
  args : list value;
  ln : bool
}.

(** The struct [Logger], its writer as the list of the writes received.  A
    nil pointer in the channel is [None]. *)
Record Logger : Type := mkLogger {
  out : list string;
  buf : string;
  entChan : list (option entry);   (* buffered, oldest first *)
  doneChan_closed : bool;
  tsLayout : string;
  prefix : string
}.

Definition entChan_cap : nat := 64.

Definition set_out (x : list string) (a : Logger) : Logger :=
  mkLogger x (buf a) (entChan a) (doneChan_closed a) (tsLayout a) (prefix a).
Definition set_buf (x : string) (a : Logger) : Logger :=
  mkLogger (out a) x (entChan a) (doneChan_closed a) (tsLayout a) (prefix a).
Definition set_entChan (x : list (option entry)) (a : Logger) : Logger :=
  mkLogger (out a) (buf a) x (doneChan_closed a) (tsLayout a) (prefix a).
Definition set_doneChan_closed (x : bool) (a : Logger) : Logger :=
  mkLogger (out a) (buf a) (entChan a) x (tsLayout a) (prefix a).

(** The monad of Go code acting on a [Logger]. *)
Definition go (A : Type) : Type := Logger -> outcome A * Logger.

#[export] Instance go_ret : MRet go := fun A x a => (Done x, a).

#[export] Instance go_bind : MBind go := fun A B k m a =>
  match m a with
  | (Done x, a') => k x a'
  | (GoPanic p, a') => (GoPanic p, a')
  | (OsExit c, a') => (OsExit c, a')
  | (Blocked, a') => (Blocked, a')
  end.

Definition get : go Logger := fun a => (Done a, a).
Definition modify (f : Logger -> Logger) : go unit := fun a => (Done tt, f a).
Definition lift {A} (r : outcome A) : go A := fun a => (r, a).
Definition panic {A} (payload : string) : go A := lift (GoPanic payload).
Definition os_Exit {A} (code : Z) : go A := lift (OsExit code).
Definition when (b : bool) (m : go unit) : go unit := if b then m else mret tt.

Fixpoint for_each {A} (l : list A) (body : A -> go unit) : go unit :=
  match l with
  | [] => mret tt
  | x :: l => body x ;; for_each l body
  end.

Section Engine.
Context `{RT : GoRuntime}.

Definition defaultTimeLayout : string := "Jan 02 15:04:05".

(** The writer is the list [out] of the writes it receives, so the default
    [os.Stderr] for a nil writer has no counterpart. *)
Definition New (pfx timeLayout : string) : Logger :=
  let timeLayout :=
    if String.eqb timeLayout "" then defaultTimeLayout
    else TrimSpace timeLayout in
  {| out := []; buf := ""; entChan := []; doneChan_closed := false;
     tsLayout := timeLayout; prefix := pfx |}.

(** [a.entChan <- ent]; the channel is never closed *)
Definition chan_send (ent : option entry) : go unit := fun a =>
  if (length (entChan a) <? entChan_cap)%nat
  then (Done tt, set_entChan (entChan a ++ [ent]) a)
  else (Blocked, a).

Definition buf_append (s : string) : go unit :=
  modify (fun a => set_buf (buf a +:+ s) a).

Definition output (ent : entry) : go unit :=
  modify (set_buf "") ;;
  a ← get;
  when (negb (prefix a =? "")%string) (buf_append (prefix a)) ;;
  when (negb (tsLayout a =? "")%string)
    (buf_append (time_Format (ts ent) (tsLayout a)) ;;
     buf_append " ") ;;
  (if negb (format ent =? "")%string then
     buf_append (Sprintf (format ent) (args ent)) ;;
     buf_append newline
   else if ln ent then
     buf_append (Sprintln (args ent))
   else
     buf_append (Sprint (args ent)) ;;
     buf_append newline) ;;
  b ← get;
  modify (set_out (out b ++ [buf b])).

Definition close_doneChan : go unit := fun a =>
  if doneChan_closed a then (GoPanic "close of closed channel", a)
  else (Done tt, set_doneChan_closed true a).

(** One turn of the goroutine [run]: an iteration of its loop, which
    leaves the loop at a nil entry and closes [doneChan].  After that the
    goroutine is gone. *)
Definition run_step : go unit :=
  a ← get;
  if doneChan_closed a then lift Blocked
  else
    match entChan a with
    | [] => lift Blocked
    | None :: rest => modify (set_entChan rest) ;; close_doneChan
    | Some ent :: rest => modify (set_entChan rest) ;; output ent
    end.

(** [<-a.doneChan]: the consumer takes its turns until [doneChan] is
    closed. *)
Fixpoint await_doneChan (turns : nat) : go unit :=
  a ← get;
  if doneChan_closed a then mret tt
  else
    match turns with
    | O => lift Blocked
    | S n => run_step ;; await_doneChan n
    end.

(** The nil entry just sent is in the queue, so a consumer that is alive
    reaches it within as many turns as the queue has items. *)
Definition Close : go unit :=
  chan_send None ;;
  a ← get;
  await_doneChan (length (entChan a)).

Definition Print (now : Z) (v : list value) : go unit :=
  chan_send (Some {| ts := now; format := ""; args := v; ln := false |}).

Definition Println (now : Z) (v : list value) : go unit :=
  chan_send (Some {| ts := now; format := ""; args := v; ln := true |}).

Definition Printf (now : Z) (fmt : string) (v : list value) : go unit :=
  chan_send (Some {| ts := now; format := fmt; args := v; ln := false |}).

Definition Panic (now : Z) (v : list value) : go unit :=
  Print now v ;; Close ;; panic (Sprint v).

Definition Panicln (now : Z) (v : list value) : go unit :=
  Println now v ;; Close ;; panic (Sprint v).

Definition Panicf (now : Z) (fmt : string) (v : list value) : go unit :=
  Printf now fmt v ;; Close ;; panic (Sprintf fmt v).

Definition Fatal (now : Z) (v : list value) : go unit :=
  Print now v ;; Close ;; os_Exit 1.

Definition Fatalln (now : Z) (v : list value) : go unit :=
  Println now v ;; Close ;; os_Exit 1.

Definition Fatalf (now : Z) (fmt : string) (v : list value) : go unit :=
  Printf now fmt v ;; Close ;; os_Exit 1.

(** Programs: calls of Print, Println and Printf, [Close], and turns of the
    consumer. *)
Inductive op : Type :=
| DoPrint (md : mode) (now : Z) (fmt : string) (v : list value)
| DoClose
| Turn.

Definition print_call (md : mode) (now : Z) (fmt : string) (v : list value)
    : go unit :=
  match md with
  | plain => Print now v
  | line => Println now v
  | formatted => Printf now fmt v
  end.

Definition exec (o : op) : go unit :=
  match o with
  | DoPrint md now fmt v => print_call md now fmt v
  | DoClose => Close
  | Turn => run_step
  end.

Definition exec_all (ops : list op) : go unit := for_each ops exec.

(** The entry a call builds. *)
Definition entry_of (md : mode) (now : Z) (fmt : string) (v : list value)
    : entry :=
  {| ts := now; format := match md with formatted => fmt | _ => "" end;
     args := v; ln := match md with line => true | _ => false end |}.

Definition panic_call (md : mode) (now : Z) (fmt : string) (v : list value)
    : go unit :=
  match md with
  | plain => Panic now v
  | line => Panicln now v
  | formatted => Panicf now fmt v
  end.

Definition fatal_call (md : mode) (now : Z) (fmt : string) (v : list value)
    : go unit :=
  match md with
  | plain => Fatal now v
  | line => Fatalln now v
  | formatted => Fatalf now fmt v
  end.

(** What a call puts in the channel: its entry, or the nil of [Close]. *)
Definition sends (o : op) : list (option entry) :=
  match o with
  | DoPrint md now fmt v => [Some (entry_of md now fmt v)]
  | DoClose => [None]
  | Turn => []
  end.

Definition enqueues (o : op) : list entry :=
  match o with
  | DoPrint md now fmt v => [entry_of md now fmt v]
  | _ => []
  end.

(** The line of an entry: the prefix, the timestamp and one space unless
    the layout is empty, the message, and one newline. *)
Definition rendered (ent : entry) : string :=
  if negb (format ent =? "")%string then Sprintf (format ent) (args ent)
  else if ln ent then Sprintln_operands (args ent)
  else Sprint (args ent).

Definition line_of (a : Logger) (ent : entry) : string :=
  prefix a +:+
  (if (tsLayout a =? "")%string then ""
   else time_Format (ts ent) (tsLayout a) +:+ " ") +:+
  rendered ent +:+ newline.

(** The consumer is alive, no nil entry is in the queue, and the lines
    written followed by the lines of the pending entries are the lines of
    the entries sent. *)
Definition running (sent : list entry) (a : Logger) : Prop :=
  doneChan_closed a = false /\
  exists pend,
    entChan a = Some <$> pend /\
    out a ++ (line_of a <$> pend) = line_of a <$> sent.

End Engine.

End Legacy.

(** * Properties *)

(** ** Strings *)

Lemma string_app_cons (c : Ascii.ascii) (s1 s2 : string) :
  String c s1 +:+ s2 = String c (s1 +:+ s2).
Proof. reflexivity. Qed.

Lemma string_app_nil_l (s : string) : "" +:+ s = s.
Proof. reflexivity. Qed.

Lemma string_app_assoc (s1 s2 s3 : string) :
  (s1 +:+ s2) +:+ s3 = s1 +:+ (s2 +:+ s3).
Proof.
  induction s1 as [|c s1 IH]; [done|].
  rewrite !string_app_cons. by rewrite IH.
Qed.

Lemma string_app_nil_r (s : string) : s +:+ "" = s.
Proof.
  induction s as [|c s IH]; [done|].
  rewrite string_app_cons. by rewrite IH.
Qed.

Lemma string_length_app (s1 s2 : string) :
  String.length (s1 +:+ s2) = (String.length s1 + String.length s2)%nat.
Proof.
  induction s1 as [|c s1 IH]; [done|].
  rewrite string_app_cons. simpl. by rewrite IH.
Qed.

Lemma substring_all_but_app (s1 s2 : string) :
  String.substring 0 (String.length s1) (s1 +:+ s2) = s1.
Proof.
  induction s1 as [|c s1 IH].
  - rewrite string_app_nil_l. by destruct s2.
  - rewrite string_app_cons. simpl. by rewrite IH.
Qed.

(** ** The monad *)

Lemma bind_done {A B} (m : go A) (k : A -> go B) a x a' :
  m a = (Done x, a') -> (m ≫= k) a = k x a'.
Proof. intros Hm. unfold mbind, go_bind. by rewrite Hm. Qed.

(** Run the first computation of a bind when its result is known. *)
Ltac go_run := erewrite bind_done; [cbv beta | reflexivity].
Ltac go_use lem := erewrite bind_done; [cbv beta | apply lem].

Lemma logger_eta (a : logger) :
  mkLogger (buf a) (entChan a) (entChan_closed a) (doneChan_closed a)
    (writeFunc a) (out a) (level a) (tsLayout a) (prefix a) (heap a)
    (stdout a) = a.
Proof. by destruct a. Qed.

Lemma logger_ext (a b : logger) :
  buf a = buf b -> entChan a = entChan b ->
  entChan_closed a = entChan_closed b ->
  doneChan_closed a = doneChan_closed b -> writeFunc a = writeFunc b ->
  out a = out b -> level a = level b -> tsLayout a = tsLayout b ->
  prefix a = prefix b -> heap a = heap b -> stdout a = stdout b ->
  a = b.
Proof. destruct a, b; simpl; intros; by subst. Qed.

(** Read a field through a setter, without unfolding the setters of a
    whole nest of updates. *)
Ltac logger_simpl :=
  repeat match goal with
  | |- context [?p (?s ?x ?a)] =>
      match type of a with logger => idtac end;
      match type of (s x a) with logger => idtac end;
      first [ change (p (s x a)) with x | change (p (s x a)) with (p a) ]
  end.


(** ** The text encoder *)

Section TextEncoder.
Context `{RT : GoRuntime}.

Lemma levelNamesText_label (lvl : Level) :
  NoLevel <= lvl <= DebugLevel ->
  array_index levelNamesText lvl = Done (severity_label lvl).
Proof.
  unfold NoLevel, DebugLevel. intros Hl.
  assert (lvl = 0 \/ lvl = 1 \/ lvl = 2 \/ lvl = 3 \/ lvl = 4 \/ lvl = 5
          \/ lvl = 6) as Hc by lia.
  destruct Hc as [->|[->|[->|[->|[->|[->| ->]]]]]]; reflexivity.
Qed.

Lemma write_fields_buf (kvs : list (string * value)) (a : logger) :
  for_each kvs (fun kv =>
    buf_append " (" ;;
    buf_append kv.1 ;;
    buf_append "=" ;;
    buf_append (Sprint [kv.2]) ;;
    buf_append ")") a
  = (Done tt, set_buf (buf a +:+ fields_text kvs) a).
Proof.
  revert a. induction kvs as [|kv kvs IH]; intros a; simpl.
  - rewrite string_app_nil_r. unfold mret, go_ret, set_buf.
    by rewrite logger_eta.
  - unfold mbind, go_bind at 1. simpl. rewrite IH. unfold set_buf; simpl.
    unfold field_text. by rewrite !string_app_assoc.
Qed.


Lemma buf_append_when (b : bool) (s : string) (a : logger) :
  when b (buf_append s) a
  = (Done tt, set_buf (buf a +:+ (if b then s else "")) a).
Proof.
  destruct b; simpl; [done|].
  rewrite string_app_nil_r. unfold mret, go_ret, set_buf.
  by rewrite logger_eta.
Qed.

Lemma label_step (lv : Level) (ent : entry) (a : logger) :
  NoLevel <= elevel ent <= DebugLevel ->
  (if negb (lv =? NoLevel) && negb (elevel ent =? NoLevel) then
     lbl ← lift (array_index levelNamesText (elevel ent));
     buf_append lbl
   else buf_append " ") a
  = (Done tt,
     set_buf (buf a +:+
       (if negb (lv =? NoLevel) && negb (elevel ent =? NoLevel)
        then severity_label (elevel ent) else " ")) a).
Proof.
  intros Hl.
  destruct (negb (lv =? NoLevel) && negb (elevel ent =? NoLevel)); [|done].
  unfold mbind, go_bind, lift. by rewrite levelNamesText_label.
Qed.

Lemma message_step (ent : entry) (a : logger) :
  (if negb (format ent =? "")%string then
     buf_append (Sprintf (format ent) (args ent))
   else if ln ent then
     buf_append (Sprintln (args ent)) ;;
     b ← get;
     buf_slice_to (Z.of_nat (String.length (buf b)) - 1)
   else buf_append (Sprint (args ent))) a
  = (Done tt, set_buf (buf a +:+ rendered ent) a).
Proof.
  unfold rendered.
  destruct (negb (format ent =? "")%string); [done|].
  destruct (ln ent); [|done].
  unfold mbind, go_bind, buf_append, modify, get, buf_slice_to, Sprintln.
  simpl.
  rewrite <- string_app_assoc.
  set (s := buf a +:+ Sprintln_operands (args ent)).
  rewrite string_length_app.
  replace (Z.of_nat (String.length s + String.length newline) - 1)
    with (Z.of_nat (String.length s)) by (simpl; lia).
  rewrite Nat2Z.id, substring_all_but_app.
  rewrite !(proj2 (Z.ltb_ge _ _)) by lia.
  done.
Qed.

(** What [writeText] leaves: the line in the buffer and at the end of the
    sink. *)
Lemma writeText_run (a : logger) (ent : entry) :
  NoLevel <= elevel ent <= DebugLevel ->
  writeText ent a =
    (Done tt, set_out (out a ++ [text_line a ent])
                (set_buf (text_line a ent) a)).
Proof.
  intros Hl. unfold writeText.
  go_run. go_run.
  go_use buf_append_when.
  go_use buf_append_when.
  erewrite bind_done; [cbv beta | by apply label_step].
  go_use message_step.
  go_run.
  go_use write_fields_buf.
  go_run. go_run.
  unfold modify. logger_simpl.
  match goal with |- context [set_out (_ ++ [?s])] =>
    assert (s = text_line a ent) as ->
  end.
  { unfold text_line, leveled.
    assert ((if negb (prefix a =? "")%string then prefix a else "")
            = prefix a) as ->.
    { destruct (prefix a =? "")%string eqn:E; simpl; [|done].
      by apply String.eqb_eq in E. }
    destruct (tsLayout a =? "")%string; simpl negb; cbv iota;
      rewrite ?string_app_nil_r, ?string_app_nil_l, !string_app_assoc;
      done. }
  reflexivity.
Qed.

(** C4.  For every entry (its level being one of the seven levels) the text
    encoder makes one write to the sink, of exactly these bytes: the
    prefix, the formatted timestamp (nothing when the layout is empty), the
    padded severity label (PANIC, FATAL, ERROR, WARN, INFO or DEBUG between
    two spaces) when both the configured level and the level of the entry
    are not NoLevel and one space otherwise, the rendered message, one
    group (k=v) preceded by a space for each attached field in the order
    the map is ranged over, and one newline.  Whatever the buffer held
    before is gone. *)
Theorem writeText_line (a : logger) (ent : entry) :
  NoLevel <= elevel ent <= DebugLevel ->
  writeText ent a =
    (Done tt, set_out (out a ++ [text_line a ent])
                (set_buf (text_line a ent) a)) /\
  text_line a ent
  = prefix a +:+
    (if (tsLayout a =? "")%string then ""
     else time_Format (ts ent) (tsLayout a)) +:+
    (if negb (level a =? NoLevel) && negb (elevel ent =? NoLevel)
     then severity_label (elevel ent) else " ") +:+
    rendered ent +:+
    fields_text (map_range (deref (heap a) (fields ent))) +:+
    newline /\
  severity_label PanicLevel = " PANIC " /\
  severity_label FatalLevel = " FATAL " /\
  severity_label ErrorLevel = " ERROR " /\
  severity_label WarnLevel = " WARN " /\
  severity_label InfoLevel = " INFO " /\
  severity_label DebugLevel = " DEBUG ".
Proof.
  intros Hl. split; [by apply writeText_run|]. by repeat split.
Qed.

End TextEncoder.

(** ** Levels *)

Lemma level_cases (lvl : Level) :
  NoLevel <= lvl <= DebugLevel ->
  lvl = NoLevel \/ lvl = PanicLevel \/ lvl = FatalLevel \/ lvl = ErrorLevel
  \/ lvl = WarnLevel \/ lvl = InfoLevel \/ lvl = DebugLevel.
Proof.
  unfold NoLevel, PanicLevel, FatalLevel, ErrorLevel, WarnLevel, InfoLevel,
    DebugLevel. lia.
Qed.

Lemma Level_String_name (lvl : Level) :
  NoLevel <= lvl <= DebugLevel -> Level_String lvl = Done (level_name lvl).
Proof.
  intros Hl. apply level_cases in Hl.
  destruct Hl as [->|[->|[->|[->|[->|[->| ->]]]]]]; reflexivity.
Qed.

(** C10.  On a level from NoLevel to DebugLevel, String returns the lowercase
    name of the level (the empty string for NoLevel, then panic, fatal,
    error, warn, info, debug); on any other value of the integer type Level
    the array index is out of range and the call panics. *)
Theorem Level_String_range (lvl : Level) :
  (NoLevel <= lvl <= DebugLevel ->
     Level_String lvl = Done (level_name lvl) /\
     levelNames !! Z.to_nat lvl = Some (level_name lvl)) /\
  (lvl < NoLevel \/ DebugLevel < lvl ->
     Level_String lvl = GoPanic "index out of range").
Proof.
  split.
  - intros Hl. split; [by apply Level_String_name|].
    apply level_cases in Hl.
    destruct Hl as [->|[->|[->|[->|[->|[->| ->]]]]]]; reflexivity.
  - unfold NoLevel, DebugLevel, Level_String, array_index. simpl length.
    intros [Hl|Hl].
    + by rewrite (proj2 (Z.leb_gt 0 lvl)) by lia.
    + rewrite (proj2 (Z.ltb_ge lvl _)) by lia. by rewrite andb_false_r.
Qed.

Lemma Level_String_range_witness :
  (Level_String InfoLevel = Done "info" /\
   levelNames !! Z.to_nat InfoLevel = Some "info") /\
  Level_String 7 = GoPanic "index out of range" /\
  Level_String (-1) = GoPanic "index out of range".
Proof.
  split; [|split].
  - apply (proj1 (Level_String_range InfoLevel)).
    unfold NoLevel, InfoLevel, DebugLevel. lia.
  - apply (proj2 (Level_String_range 7)). unfold DebugLevel. lia.
  - apply (proj2 (Level_String_range (-1))). unfold NoLevel. lia.
Defined.

(** ** The level policy *)

Section Policy.
Context `{RT : GoRuntime}.

Lemma LogableAt_true (a : logger) (sev : Level) :
  LogableAt a sev = true <-> level a = NoLevel \/ sev <= level a.
Proof.
  unfold LogableAt, NoLevel.
  destruct (Z.eqb_spec (level a) 0) as [->|Hn]; simpl.
  - split; [by left | done].
  - destruct (Z.ltb_spec (level a) sev); split; try done; lia.
Qed.

(** C1.  With the threshold of a constructed logger, which lies between
    NoLevel and DebugLevel, LogableAt answers true exactly when the
    threshold is NoLevel, or the severity is NoLevel, or the severity is
    numerically at most the threshold (Panic 1, Fatal 2, Error 3, Warn 4,
    Info 5, Debug 6); and when it answers false, log, logln and logf return
    with the whole state, the queue included, as it was. *)
Theorem LogableAt_policy (a : logger) (sev : Level) :
  NoLevel <= level a <= DebugLevel ->
  (LogableAt a sev = true <->
     level a = NoLevel \/ sev = NoLevel \/ sev <= level a) /\
  (LogableAt a sev = false ->
     forall (flds : option loc) (now : Z) (fmt : string) (v : list value),
       log flds sev now v a = (Done tt, a) /\
       logln flds sev now v a = (Done tt, a) /\
       logf flds sev now fmt v a = (Done tt, a)).
Proof.
  intros Hr. split.
  - rewrite LogableAt_true. unfold NoLevel in *. split.
    + intros [?|?]; [by left | by right; right].
    + intros [?|[->|?]]; [by left | right; lia | by right].
  - intros Hf flds now fmt v.
    unfold log, logln, logf, mbind, go_bind, get. by rewrite Hf.
Qed.

End Policy.

(** ** Maps on the heap *)

Lemma heap_alter_insert (f : gmap string value -> gmap string value)
    (l : loc) (m : gmap string value) (hp : list (gmap string value)) :
  (l < length hp)%nat ->
  alter f l (<[l := m]> hp) = <[l := f m]> hp.
Proof.
  intros Hl. apply list_eq. intros i.
  destruct (decide (i = l)) as [->|Hne].
  - rewrite list_lookup_alter_eq, !list_lookup_insert_eq by
      (rewrite ?length_insert; done). done.
  - rewrite list_lookup_alter_ne, !list_lookup_insert_ne by done. done.
Qed.

Lemma heap_insert_id (l : loc) (m : gmap string value)
    (hp : list (gmap string value)) :
  hp !! l = Some m -> <[l := m]> hp = hp.
Proof. apply list_insert_id. Qed.

Lemma deref_insert (l : loc) (m : gmap string value)
    (hp : list (gmap string value)) :
  (l < length hp)%nat -> deref (<[l := m]> hp) (Some l) = m.
Proof. intros Hl. unfold deref. by rewrite list_lookup_insert_eq. Qed.

Lemma deref_valid (l : loc) (hp : list (gmap string value)) :
  (l < length hp)%nat -> hp !! l = Some (deref hp (Some l)).
Proof.
  intros Hl. unfold deref.
  destruct (lookup_lt_is_Some_2 hp l Hl) as [m Hm]. by rewrite Hm.
Qed.

Lemma map_store_cell (l : loc) (k : string) (v : value)
    (m : gmap string value) (hp : list (gmap string value)) (a : logger) :
  (l < length hp)%nat ->
  map_store l k v (set_heap (<[l := m]> hp) a)
  = (Done tt, set_heap (<[l := <[k := v]> m]> hp) a).
Proof.
  intros Hl. unfold map_store, modify. simpl.
  by rewrite heap_alter_insert.
Qed.

(** ** Loops over a map *)

Section Loops.
Context `{RT : GoRuntime}.

Lemma map_range_NoDup (m : gmap string value) : NoDup (map_range m).*1.
Proof.
  rewrite (map_range_perm m). apply NoDup_fst_map_to_list.
Qed.

Lemma map_range_to_map (m : gmap string value) :
  list_to_map (map_range m) = m.
Proof.
  symmetry. apply list_to_map_flip. symmetry. apply map_range_perm.
Qed.

Lemma foldl_pointwise {A B} (f g : A -> B -> A) (l : list B) (x : A) :
  (forall acc y, f acc y = g acc y) -> foldl f x l = foldl g x l.
Proof.
  intros Hfg. revert x. induction l as [|y l IH]; intros x; simpl; [done|].
  by rewrite Hfg, IH.
Qed.

Lemma for_each_pointwise {A} (f g : A -> go unit) (l : list A) (a : logger) :
  (forall y b, f y b = g y b) -> for_each l f a = for_each l g a.
Proof.
  intros Hfg. revert a. induction l as [|y l IH]; intros a; simpl; [done|].
  unfold mbind, go_bind. rewrite Hfg.
  destruct (g y a) as [[[]| | |] a1]; [apply IH|done..].
Qed.

(** A loop that stores [g v] under every key it visits. *)
Lemma store_loop_cell (g : value -> option value) (l : loc)
    (kvs : list (string * value)) :
  forall (m : gmap string value) (hp : list (gmap string value)) (a : logger),
  (l < length hp)%nat ->
  for_each kvs (fun kv =>
    match g kv.2 with
    | Some w => map_store l kv.1 w
    | None => mret tt
    end) (set_heap (<[l := m]> hp) a)
  = (Done tt,
     set_heap (<[l := foldl (fun m kv =>
                  match g kv.2 with
                  | Some w => <[kv.1 := w]> m
                  | None => m
                  end) m kvs]> hp) a).
Proof.
  induction kvs as [|kv kvs IH]; intros m hp a Hl; simpl; [done|].
  unfold mbind, go_bind at 1.
  destruct (g kv.2) as [w|].
  - rewrite map_store_cell by done. by apply IH.
  - unfold mret, go_ret at 1. by apply IH.
Qed.

Lemma store_fold_lookup (g : value -> option value)
    (kvs : list (string * value)) :
  forall (m : gmap string value) (k : string),
  NoDup kvs.*1 ->
  foldl (fun m kv =>
    match g kv.2 with
    | Some w => <[kv.1 := w]> m
    | None => m
    end) m kvs !! k
  = match (list_to_map kvs : gmap string value) !! k with
    | Some v => match g v with Some w => Some w | None => m !! k end
    | None => m !! k
    end.
Proof.
  induction kvs as [|[k' v'] kvs IH]; intros m k Hnd; simpl; [done|].
  apply NoDup_cons in Hnd as [Hnotin Hnd].
  rewrite IH by done. simpl.
  destruct (decide (k' = k)) as [->|Hne].
  - rewrite lookup_insert_eq.
    rewrite (not_elem_of_list_to_map_1 (M := gmap string) kvs k) by done.
    destruct (g v'); [by rewrite lookup_insert_eq | done].
  - rewrite lookup_insert_ne by done.
    destruct (list_to_map kvs !! k) as [v|]; destruct (g v');
      rewrite ?lookup_insert_ne by done; done.
Qed.

Lemma stringify_fold (m : gmap string value) :
  foldl (fun m kv =>
    match as_error kv.2 with
    | Some msg => <[kv.1 := VStr msg]> m
    | None => m
    end) m (map_range m) = stringify <$> m.
Proof.
  apply map_eq. intros k.
  pose proof (store_fold_lookup
    (fun v => match as_error v with
              | Some msg => Some (VStr msg)
              | None => None
              end)
    (map_range m) m k (map_range_NoDup m)) as Hf.
  rewrite map_range_to_map in Hf. rewrite lookup_fmap.
  etransitivity; [|etransitivity; [exact Hf|]].
  - f_equal. apply foldl_pointwise. intros acc [k' v']. simpl.
    by destruct (as_error v').
  - unfold stringify. destruct (m !! k) as [v|]; simpl; [|done].
    by destruct (as_error v).
Qed.

Lemma copy_fold (m acc : gmap string value) :
  foldl (fun acc kv => <[kv.1 := kv.2]> acc) acc (map_range m) = m ∪ acc.
Proof.
  apply map_eq. intros k.
  pose proof (store_fold_lookup (fun v => Some v)
    (map_range m) acc k (map_range_NoDup m)) as Hf.
  rewrite map_range_to_map in Hf. simpl in Hf. rewrite Hf.
  rewrite lookup_union. destruct (m !! k), (acc !! k); done.
Qed.

End Loops.

Section LoopsOnCells.
Context `{RT : GoRuntime}.

Lemma stringify_loop_cell (l : loc) (m : gmap string value)
    (hp : list (gmap string value)) (a : logger) :
  (l < length hp)%nat ->
  for_each (map_range m) (fun kv =>
    match as_error kv.2 with
    | Some msg => map_store l kv.1 (VStr msg)
    | None => mret tt
    end) (set_heap (<[l := m]> hp) a)
  = (Done tt, set_heap (<[l := stringify <$> m]> hp) a).
Proof.
  intros Hl.
  etransitivity;
    [|etransitivity;
       [exact (store_loop_cell (fun v => VStr <$> as_error v) l
                 (map_range m) m hp a Hl)|]].
  - apply for_each_pointwise. intros [k v] b. simpl.
    by destruct (as_error v).
  - rewrite <- (stringify_fold m). do 3 f_equal.
    apply foldl_pointwise. intros acc [k v]. simpl.
    by destruct (as_error v).
Qed.

Lemma copy_loop_cell (l : loc) (m acc : gmap string value)
    (hp : list (gmap string value)) (a : logger) :
  (l < length hp)%nat ->
  for_each (map_range m) (fun kv => map_store l kv.1 kv.2)
    (set_heap (<[l := acc]> hp) a)
  = (Done tt, set_heap (<[l := m ∪ acc]> hp) a).
Proof.
  intros Hl.
  etransitivity;
    [exact (store_loop_cell (fun v => Some v) l (map_range m) acc hp a Hl)|].
  by rewrite <- (copy_fold m acc).
Qed.

End LoopsOnCells.

(** ** The JSON encoder *)

Section JSONEncoder.
Context `{RT : GoRuntime}.

Lemma keep_store_cell (l : loc) (key ext : string) (v : value)
    (m : gmap string value) (hp : list (gmap string value)) (a : logger) :
  (l < length hp)%nat ->
  (keep_under l key ext ;; map_store l key v) (set_heap (<[l := m]> hp) a)
  = (Done tt, set_heap (<[l := reserve key ext v m]> hp) a).
Proof.
  intros Hl. unfold keep_under, map_load.
  unfold mbind, go_bind, get, mret, go_ret. logger_simpl.
  rewrite deref_insert by done. unfold reserve.
  destruct (m !! key) as [old|].
  - rewrite map_store_cell by done. by rewrite map_store_cell.
  - by rewrite map_store_cell.
Qed.

Lemma when_keep_store_cell (b : bool) (l : loc) (key ext : string)
    (v : value) (m : gmap string value) (hp : list (gmap string value))
    (a : logger) :
  (l < length hp)%nat ->
  when b (keep_under l key ext ;; map_store l key v)
    (set_heap (<[l := m]> hp) a)
  = (Done tt,
     set_heap (<[l := if b then reserve key ext v m else m]> hp) a).
Proof.
  intros Hl. destruct b; simpl; [by apply keep_store_cell | done].
Qed.

Lemma level_step_cell (b : bool) (l : loc) (lvl : Level)
    (m : gmap string value) (hp : list (gmap string value)) (a : logger) :
  NoLevel <= lvl <= DebugLevel ->
  (l < length hp)%nat ->
  when b
    (keep_under l levelField extLevelField ;;
     name ← lift (Level_String lvl);
     map_store l levelField (VStr name))
    (set_heap (<[l := m]> hp) a)
  = (Done tt,
     set_heap (<[l := if b
                      then reserve levelField extLevelField
                             (VStr (level_name lvl)) m
                      else m]> hp) a).
Proof.
  intros Hlev Hl. destruct b; simpl; [|done].
  rewrite <- (keep_store_cell l levelField extLevelField) by done.
  unfold mbind, go_bind, lift.
  destruct (keep_under l levelField extLevelField _) as [[[]| | |] a1];
    try done.
  by rewrite Level_String_name.
Qed.

Lemma msg_step_cell (b : bool) (l : loc) (x y : string)
    (m : gmap string value) (hp : list (gmap string value)) (a : logger) :
  (l < length hp)%nat ->
  (if b then keep_under l msgField extMsgField ;; map_store l msgField (VStr x)
   else keep_under l msgField extMsgField ;; map_store l msgField (VStr y))
    (set_heap (<[l := m]> hp) a)
  = (Done tt,
     set_heap (<[l := reserve msgField extMsgField
                        (VStr (if b then x else y)) m]> hp) a).
Proof. intros Hl. destruct b; by apply keep_store_cell. Qed.

Lemma range_map_cell (l : loc) (m : gmap string value)
    (hp : list (gmap string value)) (a : logger) :
  (l < length hp)%nat ->
  range_map (Some l) (set_heap (<[l := m]> hp) a)
  = (Done (map_range m), set_heap (<[l := m]> hp) a).
Proof.
  intros Hl. unfold range_map, mbind, go_bind, get, mret, go_ret.
  logger_simpl. by rewrite deref_insert.
Qed.

(** What [writeJSON] does to the map of the entry and what it writes. *)
Lemma writeJSON_run (ent : entry) (a : logger) :
  entry_ok (heap a) ent ->
  writeJSON ent a = (Done tt, after_writeJSON a ent).
Proof.
  intros [Hlev Hval]. unfold writeJSON, after_writeJSON.
  set (l := match fields ent with
            | Some l => l | None => length (heap a) end).
  set (hp := match fields ent with
             | Some _ => heap a | None => (heap a ++ [∅])%list end).
  set (m := deref (heap a) (fields ent)).
  assert (l < length hp)%nat as Hl.
  { unfold l, hp. destruct (fields ent); [done|].
    rewrite length_app. simpl. lia. }
  erewrite (bind_done _ _ a l (set_heap (<[l := m]> hp) a)); [cbv beta|].
  2:{ unfold l, hp, m. destruct (fields ent) as [l0|].
      - unfold mret, go_ret. f_equal.
        rewrite heap_insert_id by (by apply deref_valid).
        unfold set_heap. by rewrite logger_eta.
      - unfold make_map. do 2 f_equal. simpl deref.
        symmetry. apply list_insert_id.
        by rewrite lookup_app_r, Nat.sub_diag by lia. }
  go_use range_map_cell; [|done].
  go_use stringify_loop_cell; [|done].
  go_run. logger_simpl.
  go_use when_keep_store_cell; [|done].
  go_use level_step_cell; [|done..].
  go_use msg_step_cell; [|done].
  go_run. logger_simpl. rewrite deref_insert by done.
  unfold json_object, leveled. fold m.
  destruct (tsLayout a =? "")%string; cbn [negb]; cbv iota zeta;
    destruct (json_Marshal _); reflexivity.
Qed.

End JSONEncoder.

(** ** Relations that every step of a computation keeps *)


Section Keeps.
Context (P : logger -> logger -> Prop) `{!Reflexive P, !Transitive P}.

Lemma keeps_ret {A} (x : A) : keeps P (mret x).
Proof. intros a. simpl. reflexivity. Qed.

Lemma keeps_get : keeps P get.
Proof. intros a. simpl. reflexivity. Qed.

Lemma keeps_lift {A} (r : outcome A) : keeps P (lift r).
Proof. intros a. simpl. reflexivity. Qed.

Lemma keeps_panic {A} (s : string) : keeps P (panic (A := A) s).
Proof. apply keeps_lift. Qed.

Lemma keeps_os_Exit {A} (c : Z) : keeps P (os_Exit (A := A) c).
Proof. apply keeps_lift. Qed.

Lemma keeps_bind {A B} (m : go A) (k : A -> go B) :
  keeps P m -> (forall x, keeps P (k x)) -> keeps P (m ≫= k).
Proof.
  intros Hm Hk a. unfold mbind, go_bind.
  specialize (Hm a). destruct (m a) as [[x| | |] a1]; simpl in *; try done.
  etransitivity; [exact Hm | apply Hk].
Qed.

Lemma keeps_when (b : bool) (m : go unit) : keeps P m -> keeps P (when b m).
Proof. intros Hm. destruct b; [done | apply keeps_ret]. Qed.

Lemma keeps_for_each {A} (l : list A) (body : A -> go unit) :
  (forall x, keeps P (body x)) -> keeps P (for_each l body).
Proof.
  intros Hb. induction l as [|x l IH]; simpl; [apply keeps_ret|].
  apply keeps_bind; [apply Hb | done].
Qed.

Lemma keeps_modify (f : logger -> logger) :
  (forall a, P a (f a)) -> keeps P (modify f).
Proof. intros Hf a. apply Hf. Qed.

End Keeps.

(** Split a computation into its steps. *)
Ltac keeps_steps :=
  repeat match goal with
  | |- keeps _ (mbind _ _) =>
      apply keeps_bind; [typeclasses eauto| |intros ?]
  | |- keeps _ (mret _) => apply keeps_ret; typeclasses eauto
  | |- keeps _ get => apply keeps_get; typeclasses eauto
  | |- keeps _ (lift _) => apply keeps_lift; typeclasses eauto
  | |- keeps _ (panic _) => apply keeps_panic; typeclasses eauto
  | |- keeps _ (os_Exit _) => apply keeps_os_Exit; typeclasses eauto
  | |- keeps _ (when _ _) => apply keeps_when; [typeclasses eauto|]
  | |- keeps _ (for_each _ _) =>
      apply keeps_for_each; [typeclasses eauto..|intros ?]
  | |- keeps _ (if ?b then _ else _) => destruct b
  | |- keeps _ (match ?x with _ => _ end) => destruct x
  end.

(** ** The configuration is never written *)


#[global] Instance same_config_refl : Reflexive same_config.
Proof. by intros a. Qed.

#[global] Instance same_config_trans : Transitive same_config.
Proof.
  intros a b c (?&?&?&?) (?&?&?&?). unfold same_config.
  by repeat split; congruence.
Qed.


#[global] Instance stable_refl : Reflexive stable.
Proof. by intros a. Qed.

#[global] Instance stable_trans : Transitive stable.
Proof.
  intros a b c (Hc1&?&?&?) (Hc2&?&?&?).
  split; [by etransitivity|]. repeat split; [tauto | tauto | lia].
Qed.

Section Stable.
Context `{RT : GoRuntime}.

Lemma stable_buf_append s : keeps stable (buf_append s).
Proof. by intros a. Qed.

Lemma stable_buf_slice_to n : keeps stable (buf_slice_to n).
Proof. intros a. unfold buf_slice_to. by destruct (_ || _). Qed.

Lemma stable_make_map : keeps stable make_map.
Proof.
  intros a. repeat split; try done. simpl. logger_simpl.
  rewrite length_app. lia.
Qed.

Lemma stable_new_fields m : keeps stable (new_fields m).
Proof.
  intros a. repeat split; try done. simpl. logger_simpl.
  rewrite length_app. lia.
Qed.

Lemma stable_map_store l k v : keeps stable (map_store l k v).
Proof.
  intros a. repeat split; try done. simpl. logger_simpl.
  by rewrite length_alter.
Qed.

Lemma stable_map_load f k : keeps stable (map_load f k).
Proof. by intros a. Qed.

Lemma stable_range_map f : keeps stable (range_map f).
Proof. by intros a. Qed.

Lemma stable_chan_send e : keeps stable (chan_send e).
Proof.
  intros a. unfold chan_send.
  destruct (entChan_closed a); [done|]. by destruct (_ <? _)%nat.
Qed.

Lemma stable_chan_recv : keeps stable chan_recv.
Proof.
  intros a. unfold chan_recv. destruct (entChan a); [|done].
  by destruct (entChan_closed a).
Qed.

Lemma stable_close_entChan : keeps stable close_entChan.
Proof. intros a. unfold close_entChan. by destruct (entChan_closed a). Qed.

Lemma stable_close_doneChan : keeps stable close_doneChan.
Proof. intros a. unfold close_doneChan. by destruct (doneChan_closed a). Qed.

Lemma stable_keep_under l key ext : keeps stable (keep_under l key ext).
Proof.
  unfold keep_under.
  keeps_steps; apply stable_map_load || apply stable_map_store.
Qed.

Lemma stable_writeText ent : keeps stable (writeText ent).
Proof.
  unfold writeText.
  keeps_steps;
    first [ apply stable_buf_append | apply stable_buf_slice_to
          | apply stable_range_map | by apply keeps_modify ].
Qed.

Lemma stable_writeJSON ent : keeps stable (writeJSON ent).
Proof.
  unfold writeJSON.
  keeps_steps;
    first [ apply stable_make_map | apply stable_range_map
          | apply stable_map_store | apply stable_keep_under
          | by apply keeps_modify ].
Qed.

Lemma stable_call_writeFunc ent : keeps stable (call_writeFunc ent).
Proof.
  unfold call_writeFunc.
  keeps_steps; [apply stable_writeText | apply stable_writeJSON].
Qed.

Lemma stable_run_step : keeps stable run_step.
Proof.
  unfold run_step.
  keeps_steps;
    first [ apply stable_chan_recv | apply stable_call_writeFunc
          | apply stable_close_doneChan ].
Qed.

Lemma stable_await_doneChan n : keeps stable (await_doneChan n).
Proof.
  induction n as [|n IH]; simpl; keeps_steps;
    first [ apply stable_run_step | apply IH ].
Qed.

Lemma stable_Close : keeps stable Close.
Proof.
  unfold Close.
  keeps_steps; [apply stable_close_entChan | apply stable_await_doneChan].
Qed.

Lemma stable_log flds lvl now v : keeps stable (log flds lvl now v).
Proof. unfold log. keeps_steps. apply stable_chan_send. Qed.

Lemma stable_logln flds lvl now v : keeps stable (logln flds lvl now v).
Proof. unfold logln. keeps_steps. apply stable_chan_send. Qed.

Lemma stable_logf flds lvl now fmt v :
  keeps stable (logf flds lvl now fmt v).
Proof. unfold logf. keeps_steps. apply stable_chan_send. Qed.

Lemma stable_call fam md h now fmt v :
  keeps stable (call fam md h now fmt v).
Proof.
  destruct fam, md; simpl;
    unfold Print, Println, Printf, Panic, Panicln, Panicf, Fatal, Fatalln,
      Fatalf, Error, Errorln, Errorf, Warn, Warnln, Warnf, Info, Infoln, Infof,
      Debug, Debugln, Debugf;
    keeps_steps;
    first [ apply stable_chan_send | apply stable_log | apply stable_logln
          | apply stable_logf | apply stable_Close ].
Qed.

Lemma stable_WithFields h flds : keeps stable (WithFields h flds).
Proof.
  destruct h; simpl; unfold logger_WithFields, fieldLogger_WithFields;
    keeps_steps;
    first [ apply stable_make_map | apply stable_range_map
          | apply stable_map_store ].
Qed.

Lemma stable_exec o : keeps stable (exec o).
Proof.
  destruct o; simpl; try unfold WithField; keeps_steps;
    first [ apply stable_call | apply stable_WithFields
          | apply stable_make_map | apply stable_map_store
          | apply stable_new_fields | apply stable_Close
          | apply stable_run_step ].
Qed.

Lemma stable_exec_all ops : keeps stable (exec_all ops).
Proof. apply keeps_for_each; [apply _..|]. apply stable_exec. Qed.

Lemma config_exec_all ops : keeps same_config (exec_all ops).
Proof. intros a. apply stable_exec_all. Qed.

End Stable.

(** C9.  Whatever level is passed to the constructors, the threshold they
    store is that level clamped between NoLevel and DebugLevel: a level
    below NoLevel becomes NoLevel and a level above DebugLevel becomes
    DebugLevel; and after any program of calls, derivations, turns of the
    consumer and Close run on the constructed logger, the stored threshold
    (and the rest of the configuration) is still what the constructor
    stored. *)
Theorem threshold_clamped `{RT : GoRuntime} (hp : list (gmap string value))
    (lvl : Level) (timeLayout pfx : string) (ops : list op) :
  let a := newLogger hp lvl timeLayout in
  let t := NewText hp lvl timeLayout pfx in
  let j := NewJSON hp lvl timeLayout in
  level a = Z.max NoLevel (Z.min DebugLevel lvl) /\
  NoLevel <= level a <= DebugLevel /\
  (lvl < NoLevel -> level a = NoLevel) /\
  (DebugLevel < lvl -> level a = DebugLevel) /\
  (NoLevel <= lvl <= DebugLevel -> level a = lvl) /\
  level t = level a /\ level j = level a /\
  same_config t (exec_all ops t).2 /\
  same_config j (exec_all ops j).2 /\
  level (exec_all ops t).2 = Z.max NoLevel (Z.min DebugLevel lvl) /\
  level (exec_all ops j).2 = Z.max NoLevel (Z.min DebugLevel lvl).
Proof.
  intros a t j.
  assert (level a = Z.max NoLevel (Z.min DebugLevel lvl)) as Ha.
  { unfold a, newLogger, NoLevel, DebugLevel. simpl.
    destruct (Z.ltb_spec lvl 0); [lia|].
    destruct (Z.gtb_spec lvl 6); lia. }
  pose proof (config_exec_all ops t) as Ht.
  pose proof (config_exec_all ops j) as Hj.
  repeat split; try apply Ht; try apply Hj; try done;
    try (rewrite Ha; unfold NoLevel, DebugLevel; lia).
  - destruct Ht as [Ht _]. rewrite Ht. exact Ha.
  - destruct Hj as [Hj _]. rewrite Hj. exact Ha.
Qed.

Lemma threshold_clamped_witness :
  level (newLogger [] (-3) "") = NoLevel /\
  level (newLogger [] 9 "") = DebugLevel /\
  level (newLogger [] WarnLevel "") = WarnLevel /\
  level (exec_all [Call FInfo plain Base 0 "" [VStr "x"]; Turn; DoClose]
           (NewJSON [] 9 "")).2 = DebugLevel.
Proof.
  pose proof (threshold_clamped [] (-3) "" "" []) as H1.
  pose proof (threshold_clamped [] 9 "" ""
    [Call FInfo plain Base 0 "" [VStr "x"]; Turn; DoClose]) as H2.
  pose proof (threshold_clamped [] WarnLevel "" "" []) as H3.
  cbv zeta in H1, H2, H3.
  split; [|split; [|split]].
  - destruct H1 as (_&_&H1&_). apply H1. unfold NoLevel. lia.
  - destruct H2 as (_&_&_&H2&_). apply H2. unfold DebugLevel. lia.
  - destruct H3 as (_&_&_&_&H3&_). apply H3.
    unfold NoLevel, WarnLevel, DebugLevel. lia.
  - destruct H2 as (_&_&_&_&_&_&_&_&_&_&H2). exact H2.
Defined.

(** ** Deriving scoped loggers *)

Section Derive.
Context `{RT : GoRuntime}.

Lemma deref_app (hp hp' : list (gmap string value)) (f : option loc) :
  fields_valid hp f -> deref (hp ++ hp')%list f = deref hp f.
Proof.
  destruct f as [l|]; simpl; [|done].
  intros Hl. by rewrite lookup_app_l.
Qed.

Lemma deref_snoc_empty (hp : list (gmap string value)) (f : option loc) :
  deref (hp ++ [∅])%list f = deref hp f.
Proof.
  destruct f as [l|]; simpl; [|done].
  destruct (decide (l < length hp)%nat) as [Hl|Hl].
  - by rewrite lookup_app_l.
  - rewrite (lookup_ge_None_2 hp l) by lia. simpl.
    destruct (decide (l = length hp)) as [->|Hne].
    + by rewrite lookup_app_r, Nat.sub_diag by lia.
    + rewrite lookup_ge_None_2; [done|]. rewrite length_app. simpl. lia.
Qed.

Lemma insert_snoc (hp : list (gmap string value)) (m m' : gmap string value) :
  (<[length hp := m]> (hp ++ [m']) = hp ++ [m])%list.
Proof.
  rewrite insert_app_r_alt, Nat.sub_diag by lia. done.
Qed.

Lemma deref_insert_ne (hp : list (gmap string value)) (l : loc)
    (m : gmap string value) (f : option loc) :
  f <> Some l -> deref (<[l := m]> hp) f = deref hp f.
Proof.
  destruct f as [l'|]; simpl; [|done].
  intros Hne. rewrite list_lookup_insert_ne; [done|]. congruence.
Qed.

(** [WithFields] on a scoped logger allocates one map, which holds the
    given fields over the fields of the receiver, and changes nothing
    else. *)
Lemma fieldLogger_WithFields_other (f flds : option loc) (a : logger) :
  flds <> Some (length (heap a)) ->
  fieldLogger_WithFields f flds a
  = (Done (Scoped (Some (length (heap a)))),
     set_heap (heap a ++ [deref (heap a) flds ∪ deref (heap a) f]) a).
Proof.
  intros Hv. unfold fieldLogger_WithFields.
  set (n := length (heap a)).
  assert (n < length (heap a ++ [∅])%list)%nat as Hn.
  { rewrite length_app. simpl. lia. }
  erewrite (bind_done _ _ a n (set_heap (<[n := ∅]> (heap a ++ [∅])) a));
    [cbv beta|].
  2:{ unfold make_map, n. by rewrite insert_snoc. }
  erewrite (bind_done _ _ _ (map_range (deref (heap a) f))); [cbv beta|].
  2:{ unfold range_map, mbind, go_bind, get, mret, go_ret. logger_simpl.
      destruct (decide (f = Some n)) as [->|Hne].
      - rewrite deref_insert by done. unfold deref, n.
        by rewrite (lookup_ge_None_2 (heap a)) by lia.
      - by rewrite deref_insert_ne, deref_snoc_empty. }
  go_use copy_loop_cell; [|done].
  erewrite (bind_done _ _ _ (map_range (deref (heap a) flds))); [cbv beta|].
  2:{ unfold range_map, mbind, go_bind, get, mret, go_ret. logger_simpl.
      by rewrite deref_insert_ne, deref_snoc_empty. }
  go_use copy_loop_cell; [|done].
  unfold mret, go_ret. rewrite (right_id_L ∅ (∪)).
  unfold n. by rewrite insert_snoc.
Qed.

Lemma fieldLogger_WithFields_run (f flds : option loc) (a : logger) :
  fields_valid (heap a) flds ->
  fieldLogger_WithFields f flds a
  = (Done (Scoped (Some (length (heap a)))),
     set_heap (heap a ++ [deref (heap a) flds ∪ deref (heap a) f]) a).
Proof.
  intros Hv. apply fieldLogger_WithFields_other.
  destruct flds as [l|]; [|done]. simpl in Hv. intros [= ->]. lia.
Qed.

(** Whatever its arguments refer to, it allocates one map and changes
    nothing else. *)
Lemma fieldLogger_WithFields_alloc (f flds : option loc) (a : logger) :
  exists X,
    fieldLogger_WithFields f flds a
    = (Done (Scoped (Some (length (heap a)))), set_heap (heap a ++ [X]) a).
Proof.
  destruct (decide (flds = Some (length (heap a)))) as [->|Hne].
  - exists (deref (heap a) f). unfold fieldLogger_WithFields.
    set (n := length (heap a)).
    assert (n < length (heap a ++ [∅]))%nat as Hn.
    { rewrite length_app. simpl. lia. }
    erewrite (bind_done _ _ a n (set_heap (<[n := ∅]> (heap a ++ [∅])) a));
      [cbv beta|].
    2:{ unfold make_map, n. by rewrite insert_snoc. }
    erewrite (bind_done _ _ _ (map_range (deref (heap a) f))); [cbv beta|].
    2:{ unfold range_map, mbind, go_bind, get, mret, go_ret. logger_simpl.
        destruct (decide (f = Some n)) as [->|Hne].
        - rewrite deref_insert by done. unfold deref, n.
          by rewrite (lookup_ge_None_2 (heap a)) by lia.
        - by rewrite deref_insert_ne, deref_snoc_empty. }
    go_use copy_loop_cell; [|done].
    go_use range_map_cell; [|done].
    go_use copy_loop_cell; [|done].
    unfold mret, go_ret. rewrite (right_id_L ∅ (∪)), (idemp_L (∪)).
    unfold n. by rewrite insert_snoc.
  - eexists. by apply fieldLogger_WithFields_other.
Qed.

End Derive.

Section Associativity.
Context `{RT : GoRuntime}.

Lemma deref_lookup (hp : list (gmap string value)) (l : loc)
    (m : gmap string value) :
  hp !! l = Some m -> deref hp (Some l) = m.
Proof. intros Hm. unfold deref. by rewrite Hm. Qed.

Lemma deref_new (hp : list (gmap string value)) (m : gmap string value) :
  deref (hp ++ [m]) (Some (length hp)) = m.
Proof. unfold deref. by rewrite lookup_app_r, Nat.sub_diag by lia. Qed.

Lemma lookup_snoc_old (hp : list (gmap string value)) (l : loc)
    (m m' : gmap string value) :
  hp !! l = Some m -> (hp ++ [m']) !! l = Some m.
Proof. intros Hm. by apply lookup_app_l_Some. Qed.

(** C6.  For a base logger and field mappings A and B, deriving with A and
    then with B gives a scoped logger whose field set is the one of the
    logger derived at once with merge(A,B), in which the values of B shadow
    those of A (and both shadow the fields of the base); the derivations
    return without changing any map that existed nor anything else of the
    engine, so the receiver is not mutated. *)
Theorem WithFields_assoc (base : handle) (la lb lab : loc)
    (A B : gmap string value) (a : logger) :
  heap a !! la = Some A ->
  heap a !! lb = Some B ->
  heap a !! lab = Some (merge_fields A B) ->
  exists h1 a1 h2 a2 h3 a3,
    WithFields base (Some la) a = (Done h1, a1) /\
    WithFields h1 (Some lb) a1 = (Done h2, a2) /\
    WithFields base (Some lab) a = (Done h3, a3) /\
    deref (heap a2) (hfields h2) = deref (heap a3) (hfields h3) /\
    deref (heap a2) (hfields h2)
      = merge_fields (merge_fields (deref (heap a) (hfields base)) A) B /\
    (forall l m, heap a !! l = Some m ->
       heap a1 !! l = Some m /\ heap a2 !! l = Some m /\
       heap a3 !! l = Some m) /\
    a1 = set_heap (heap a1) a /\ a2 = set_heap (heap a2) a /\
    a3 = set_heap (heap a3) a.
Proof.
  intros HA HB HAB.
  assert (la < length (heap a))%nat as Hla by (by eapply lookup_lt_Some).
  assert (lb < length (heap a))%nat as Hlb by (by eapply lookup_lt_Some).
  assert (lab < length (heap a))%nat as Hlab by (by eapply lookup_lt_Some).
  assert (forall x : logger, x = set_heap (heap x) x) as Heta.
  { intros x. unfold set_heap. by rewrite logger_eta. }
  destruct base as [|f]; simpl WithFields; unfold logger_WithFields.
  - eexists _, _, _, _, _, _. split; [reflexivity|]. split.
    { simpl. by apply fieldLogger_WithFields_run. }
    split; [reflexivity|].
    logger_simpl. simpl hfields.
    rewrite deref_new, !(deref_lookup _ _ _ HA), !(deref_lookup _ _ _ HB),
      (deref_lookup _ _ _ HAB).
    unfold merge_fields. simpl deref. rewrite (right_id_L ∅ (∪)).
    repeat split; try done.
    by apply lookup_snoc_old.
  - eexists _, _, _, _, _, _. split.
    { by apply fieldLogger_WithFields_run. }
    split.
    { simpl. apply fieldLogger_WithFields_run. logger_simpl. simpl.
      rewrite length_app. lia. }
    split.
    { by apply fieldLogger_WithFields_run. }
    logger_simpl. simpl hfields.
    rewrite !deref_new.
    rewrite (deref_lookup _ _ _ (lookup_snoc_old _ _ _ _ HB)).
    rewrite !(deref_lookup _ _ _ HA), (deref_lookup _ _ _ HAB).
    unfold merge_fields. rewrite ?HA.
    change (default ∅ (Some A)) with A.
    repeat split; try done.
    + by rewrite (assoc_L (∪)).
    + by apply lookup_snoc_old.
    + by do 2 apply lookup_snoc_old.
    + by apply lookup_snoc_old.
Qed.

End Associativity.

(** ** Reserved keys of the JSON object *)

Section Reserved.
Context `{RT : GoRuntime}.

Lemma reserve_key (key ext : string) (v : value) (m : gmap string value) :
  reserve key ext v m !! key = Some v.
Proof. unfold reserve. apply lookup_insert_eq. Qed.

Lemma reserve_ext (key ext : string) (v old : value)
    (m : gmap string value) :
  key <> ext -> m !! key = Some old ->
  reserve key ext v m !! ext = Some old.
Proof.
  intros Hne Hm. unfold reserve. rewrite Hm.
  rewrite lookup_insert_ne by done. apply lookup_insert_eq.
Qed.

Lemma reserve_other (key ext k : string) (v : value)
    (m : gmap string value) :
  k <> key -> k <> ext -> reserve key ext v m !! k = m !! k.
Proof.
  intros Hk He. unfold reserve. rewrite lookup_insert_ne by done.
  destruct (m !! key); [by rewrite lookup_insert_ne | done].
Qed.

Ltac keys_ne :=
  unfold levelField, extLevelField, msgField, extMsgField, timeField,
    extTimeField; discriminate.

(** C5, as amended.  The object that [writeJSON] hands to json.Marshal has,
    under each reserved key the encoder computes for the entry (msg always,
    time when the layout is not empty, level when both the threshold and
    the level of the entry are not NoLevel), the computed value; and when
    the map of the entry already had that key, its value is kept under
    fields.msg, fields.time or fields.level, an error value having first
    been replaced by its message like every error value of the map. *)
Theorem writeJSON_reserved_keys (a : logger) (ent : entry) :
  entry_ok (heap a) ent ->
  let m := deref (heap a) (fields ent) in
  let obj := json_object a ent m in
  writeJSON ent a = (Done tt, after_writeJSON a ent) /\
  (obj !! msgField
     = Some (VStr (if negb (format ent =? "")%string
                   then Sprintf (format ent) (args ent)
                   else Sprint (args ent))) /\
   forall v, m !! msgField = Some v ->
             obj !! extMsgField = Some (stringify v)) /\
  ((tsLayout a =? "")%string = false ->
   obj !! timeField = Some (VStr (time_Format (ts ent) (tsLayout a))) /\
   forall v, m !! timeField = Some v ->
             obj !! extTimeField = Some (stringify v)) /\
  (leveled a ent = true ->
   obj !! levelField = Some (VStr (level_name (elevel ent))) /\
   forall v, m !! levelField = Some v ->
             obj !! extLevelField = Some (stringify v)) /\
  (forall v, as_error v = None -> stringify v = v).
Proof.
  intros Hok m obj. split; [by apply writeJSON_run|].
  assert (forall k v, m !! k = Some v ->
            (stringify <$> m) !! k = Some (stringify v)) as Hstr.
  { intros k v Hk. by rewrite lookup_fmap, Hk. }
  unfold obj, json_object. repeat split.
  - apply reserve_key.
  - intros v Hv. apply reserve_ext; [keys_ne|].
    destruct (leveled a ent); [rewrite reserve_other by keys_ne|];
      (destruct (tsLayout a =? "")%string;
         [|rewrite reserve_other by keys_ne]); by apply Hstr.
  - rewrite H. rewrite reserve_other by keys_ne.
    destruct (leveled a ent); [rewrite reserve_other by keys_ne|];
      apply reserve_key.
  - intros v Hv. rewrite H. rewrite reserve_other by keys_ne.
    destruct (leveled a ent); [rewrite reserve_other by keys_ne|];
      (apply reserve_ext; [keys_ne | by apply Hstr]).
  - rewrite H. rewrite reserve_other by keys_ne. apply reserve_key.
  - intros v Hv. rewrite H. rewrite reserve_other by keys_ne.
    apply reserve_ext; [keys_ne|].
    destruct (tsLayout a =? "")%string;
      [|rewrite reserve_other by keys_ne]; by apply Hstr.
  - intros v Hv. unfold stringify. by rewrite Hv.
Qed.

End Reserved.

(** ** Turns of the consumer *)

Section Consumer.
Context `{RT : GoRuntime}.

Lemma run_step_recv (a : logger) (ent : entry) (rest : list entry) :
  doneChan_closed a = false ->
  entChan a = ent :: rest ->
  run_step a = call_writeFunc ent (set_entChan rest a).
Proof.
  intros Hd Hq. unfold run_step.
  go_run. rewrite Hd.
  erewrite (bind_done _ _ a (Some ent) (set_entChan rest a)); [done|].
  unfold chan_recv. by rewrite Hq.
Qed.

Lemma run_step_json (a : logger) (ent : entry) (rest : list entry) :
  writeFunc a = writeJSONFn ->
  doneChan_closed a = false ->
  entChan a = ent :: rest ->
  entry_ok (heap a) ent ->
  run_step a = (Done tt, after_writeJSON (set_entChan rest a) ent).
Proof.
  intros Hw Hd Hq Hok. rewrite (run_step_recv a ent rest) by done.
  unfold call_writeFunc. go_run. logger_simpl. rewrite Hw.
  by apply writeJSON_run.
Qed.

Lemma run_step_text (a : logger) (ent : entry) (rest : list entry) :
  writeFunc a = writeTextFn ->
  doneChan_closed a = false ->
  entChan a = ent :: rest ->
  NoLevel <= elevel ent <= DebugLevel ->
  run_step a
  = (Done tt, set_out (out a ++ [text_line a ent])
                (set_buf (text_line a ent) (set_entChan rest a))).
Proof.
  intros Hw Hd Hq Hok. rewrite (run_step_recv a ent rest) by done.
  unfold call_writeFunc. go_run. logger_simpl. rewrite Hw.
  by rewrite writeText_run.
Qed.

Lemma run_step_exit (a : logger) :
  doneChan_closed a = false ->
  entChan a = [] ->
  entChan_closed a = true ->
  run_step a = (Done tt, set_doneChan_closed true a).
Proof.
  intros Hd Hq Hc. unfold run_step.
  go_run. rewrite Hd.
  erewrite (bind_done _ _ a None a); [cbv beta|].
  2:{ unfold chan_recv. by rewrite Hq, Hc. }
  unfold close_doneChan. by rewrite Hd.
Qed.

(** C7.  When json.Marshal fails on the object of the entry at the head of
    the queue, the turn of the consumer returns normally: the entry is
    gone from the queue, nothing was written to the sink, one diagnostic
    went to the standard output, the consumer is still running and takes
    the next entry on its next turn (or leaves once the queue is closed and
    empty), and a producer that sends sees the channel exactly as if the
    entry had just been removed. *)
Theorem marshal_failure_drops_entry (a : logger) (ent : entry)
    (rest : list entry) (err : string) :
  writeFunc a = writeJSONFn ->
  doneChan_closed a = false ->
  entChan a = ent :: rest ->
  entry_ok (heap a) ent ->
  json_Marshal (json_object a ent (deref (heap a) (fields ent))) = inr err ->
  exists a',
    run_step a = (Done tt, a') /\
    out a' = out a /\
    stdout a' = stdout a ++
      [Sprintln [VStr "Failed to marshal fields to JSON:"; VErr err]] /\
    entChan a' = rest /\
    entChan_closed a' = entChan_closed a /\
    doneChan_closed a' = false /\
    same_config a a' /\
    (forall e, (chan_send e a').1 = (chan_send e (set_entChan rest a)).1) /\
    (forall e2 rest2, rest = e2 :: rest2 -> entry_ok (heap a') e2 ->
       run_step a' = (Done tt, after_writeJSON (set_entChan rest2 a') e2)) /\
    (rest = [] -> entChan_closed a = true ->
       run_step a' = (Done tt, set_doneChan_closed true a')).
Proof.
  intros Hw Hd Hq Hok Herr.
  exists (after_writeJSON (set_entChan rest a) ent).
  split; [by apply run_step_json|].
  unfold after_writeJSON. logger_simpl.
  change (json_object (set_entChan rest a) ent) with (json_object a ent).
  rewrite Herr.
  repeat split; try done.
  - intros e. unfold chan_send. logger_simpl.
    destruct (entChan_closed a); [done|].
    by destruct (length rest <? entChan_cap)%nat.
  - intros e2 rest2 -> Hok2. apply run_step_json; try done.
  - intros -> Hc. by apply run_step_exit.
Qed.

End Consumer.

(** ** Close waits for the consumer to drain the queue *)

Section Drain.
Context `{RT : GoRuntime}.

Lemma await_done_already (n : nat) (a : logger) :
  doneChan_closed a = true -> await_doneChan n a = (Done tt, a).
Proof.
  intros Hd. destruct n; simpl; unfold mbind, go_bind, get;
    by rewrite Hd.
Qed.

Lemma await_turn (n : nat) (a a' : logger) :
  doneChan_closed a = false ->
  run_step a = (Done tt, a') ->
  await_doneChan (S n) a = await_doneChan n a'.
Proof.
  intros Hd Hstep. simpl. unfold mbind, go_bind, get at 1.
  by rewrite Hd, Hstep.
Qed.

Lemma entry_ok_mono (hp hp' : list (gmap string value)) (e : entry) :
  (length hp <= length hp')%nat -> entry_ok hp e -> entry_ok hp' e.
Proof.
  intros Hle [Hlev Hv]. split; [done|].
  destruct (fields e); [lia | done].
Qed.

Lemma after_writeJSON_heap_length (a : logger) (ent : entry) :
  (length (heap a) <= length (heap (after_writeJSON a ent)))%nat.
Proof.
  unfold after_writeJSON. destruct (json_Marshal _); logger_simpl;
    rewrite length_insert; destruct (fields ent);
    rewrite ?length_app; simpl; lia.
Qed.

Lemma after_writeJSON_count (a : logger) (ent : entry) :
  (length (out (after_writeJSON a ent))
   + length (stdout (after_writeJSON a ent))
   = length (out a) + length (stdout a) + 1)%nat.
Proof.
  unfold after_writeJSON. destruct (json_Marshal _); logger_simpl;
    rewrite length_app; simpl; lia.
Qed.

(** With the channel closed, the consumer takes the pending entries one
    by one from the head, passes each to the text encoder, and then
    closes [doneChan]. *)
Lemma await_drains_text (q : list entry) :
  forall a,
  writeFunc a = writeTextFn ->
  doneChan_closed a = false ->
  entChan_closed a = true ->
  entChan a = q ->
  Forall (fun e => NoLevel <= elevel e <= DebugLevel) q ->
  exists a2,
    await_doneChan (S (length q)) a = (Done tt, a2) /\
    entChan a2 = [] /\ doneChan_closed a2 = true /\
    entChan_closed a2 = true /\
    out a2 = out a ++ (text_line a <$> q) /\
    heap a2 = heap a /\ stdout a2 = stdout a /\ same_config a a2.
Proof.
  induction q as [|e rest IH]; intros a Hw Hd Hc Hq Hok.
  - exists (set_doneChan_closed true a). simpl length.
    rewrite (await_turn 0 a _ Hd (run_step_exit a Hd Hq Hc)).
    rewrite await_done_already by done.
    repeat split; try done. simpl. by rewrite app_nil_r.
  - apply Forall_cons in Hok as [He Hok].
    pose proof (run_step_text a e rest Hw Hd Hq He) as Hstep.
    set (a' := set_out (out a ++ [text_line a e])
                 (set_buf (text_line a e) (set_entChan rest a))) in *.
    destruct (IH a') as (a2 & Hrun & Hq2 & Hd2 & Hc2 & Hout & Hhp & Hso & Hcfg);
      try done.
    exists a2. simpl length. rewrite (await_turn _ a a' Hd Hstep).
    repeat split; try done; try apply Hcfg.
    rewrite Hout. unfold a'. logger_simpl. rewrite fmap_cons.
    by rewrite <- app_assoc.
Qed.

(** The same with the JSON encoder: every pending entry gives one write
    to the sink or one diagnostic. *)
Lemma await_drains_json (q : list entry) :
  forall a,
  writeFunc a = writeJSONFn ->
  doneChan_closed a = false ->
  entChan_closed a = true ->
  entChan a = q ->
  Forall (entry_ok (heap a)) q ->
  exists a2,
    await_doneChan (S (length q)) a = (Done tt, a2) /\
    entChan a2 = [] /\ doneChan_closed a2 = true /\
    entChan_closed a2 = true /\
    (length (out a2) + length (stdout a2)
     = length (out a) + length (stdout a) + length q)%nat /\
    same_config a a2.
Proof.
  induction q as [|e rest IH]; intros a Hw Hd Hc Hq Hok.
  - exists (set_doneChan_closed true a). simpl length.
    rewrite (await_turn 0 a _ Hd (run_step_exit a Hd Hq Hc)).
    rewrite await_done_already by done.
    repeat split; try done; logger_simpl; simpl; lia.
  - apply Forall_cons in Hok as [He Hok].
    pose proof (run_step_json a e rest Hw Hd Hq He) as Hstep.
    set (a' := after_writeJSON (set_entChan rest a) e) in *.
    assert (same_config a a') as Hcfg'.
    { unfold a', after_writeJSON. by destruct (json_Marshal _). }
    destruct (IH a') as (a2 & Hrun & Hq2 & Hd2 & Hc2 & Hcount & Hcfg).
    + destruct Hcfg' as (_&_&_&->). done.
    + unfold a', after_writeJSON. by destruct (json_Marshal _).
    + unfold a', after_writeJSON. by destruct (json_Marshal _).
    + unfold a', after_writeJSON. by destruct (json_Marshal _).
    + eapply Forall_impl; [exact Hok|]. intros x. apply entry_ok_mono.
      apply (after_writeJSON_heap_length (set_entChan rest a) e).
    + exists a2. simpl length. rewrite (await_turn _ a a' Hd Hstep).
      repeat split; try done.
      * rewrite Hcount. unfold a'.
        pose proof (after_writeJSON_count (set_entChan rest a) e) as Hc1.
        revert Hc1. logger_simpl. lia.
      * destruct Hcfg as (->&_), Hcfg' as (->&_). done.
      * destruct Hcfg as (_&->&_), Hcfg' as (_&->&_). done.
      * destruct Hcfg as (_&_&->&_), Hcfg' as (_&_&->&_). done.
      * destruct Hcfg as (_&_&_&->), Hcfg' as (_&_&_&->). done.
Qed.

End Drain.

(** ** Producers *)

Section Producers.
Context `{RT : GoRuntime}.

Lemma chan_send_done (e : entry) (a a' : logger) :
  chan_send e a = (Done tt, a') ->
  entChan_closed a = false /\ a' = set_entChan (entChan a ++ [e]) a.
Proof.
  unfold chan_send. destruct (entChan_closed a); [done|].
  destruct (_ <? _)%nat; [|done]. by intros [= <-].
Qed.

Lemma chan_send_room (e : entry) (a : logger) :
  entChan_closed a = false ->
  (length (entChan a) < entChan_cap)%nat ->
  chan_send e a = (Done tt, set_entChan (entChan a ++ [e]) a).
Proof.
  intros Hc Hlen. unfold chan_send. rewrite Hc.
  by rewrite (proj2 (Nat.ltb_lt _ _) Hlen).
Qed.



(** Every other call sends the entry it builds, when it is admitted. *)
Lemma call_send (fam : family) (md : mode) (h : handle) (now : Z)
    (fmt : string) (v : list value) (a : logger) :
  fam <> FPanic -> fam <> FFatal ->
  call fam md h now fmt v a
  = if admitted a fam then chan_send (entry_of fam md h now fmt v) a
    else (Done tt, a).
Proof.
  intros Hp Hf.
  destruct fam; try done; destruct md; simpl; try reflexivity;
    unfold Error, Errorln, Errorf, Warn, Warnln, Warnf, Info, Infoln, Infof,
      Debug, Debugln, Debugf, log, logln, logf, mbind, go_bind, get;
    by destruct (LogableAt a _).
Qed.

(** [WithField] allocates the map of its literal, and on a scoped logger
    the merged map as well; nothing else changes. *)
Lemma WithField_run (h : handle) (key : string) (v : value) (a : logger) :
  exists hnd ext,
    WithField h key v a = (Done hnd, set_heap (heap a ++ ext) a).
Proof.
  unfold WithField.
  set (n := length (heap a)).
  assert (make_map a = (Done n, set_heap (<[n := ∅]> (heap a ++ [∅])) a))
    as Hmk.
  { unfold make_map, n. by rewrite insert_snoc. }
  assert (n < length (heap a ++ [∅]))%nat as Hn.
  { rewrite length_app. simpl. lia. }
  destruct h as [|f].
  - exists (Scoped (Some n)), [{[ key := v ]}].
    erewrite bind_done; [|exact Hmk]. cbv beta.
    go_use map_store_cell; [|done].
    simpl. unfold logger_WithFields, mret, go_ret.
    unfold n. by rewrite insert_snoc, insert_empty.
  - exists (Scoped (Some (S n))),
      [{[ key := v ]};
       {[ key := v ]} ∪ deref (heap a ++ [{[ key := v ]}]) f].
    erewrite bind_done; [|exact Hmk]. cbv beta.
    go_use map_store_cell; [|done].
    simpl WithFields. unfold n. rewrite insert_snoc, insert_empty.
    rewrite fieldLogger_WithFields_run.
    2:{ logger_simpl. simpl. rewrite length_app. simpl. lia. }
    logger_simpl. rewrite length_app. simpl length.
    rewrite Nat.add_1_r, deref_new.
    by rewrite <- app_assoc.
Qed.

End Producers.

(** ** The engine while it runs *)

Section Running.
Context `{RT : GoRuntime}.



Lemma entry_of_ok (fam : family) (md : mode) (h : handle) (now : Z)
    (fmt : string) (v : list value) (hp : list (gmap string value)) :
  fields_valid hp (hfields h) -> entry_ok hp (entry_of fam md h now fmt v).
Proof.
  intros Hv. split; [|exact Hv]. by destruct fam.
Qed.

Lemma running_send (sent : list entry) (a : logger) (e : entry) :
  running sent a -> entry_ok (heap a) e ->
  running (sent ++ [e]) (set_entChan (entChan a ++ [e]) a).
Proof.
  intros (Hd & Hc & Hsent & Hq & Hacc) He.
  repeat split; try done.
  - apply Forall_app. split; [done|]. by apply Forall_singleton.
  - logger_simpl. apply Forall_app. split; [done|].
    by apply Forall_singleton.
  - unfold accounts in *. logger_simpl.
    change (text_line (set_entChan (entChan a ++ [e]) a))
      with (text_line a).
    destruct (writeFunc a).
    + rewrite !fmap_app, app_assoc. by rewrite Hacc.
    + rewrite !length_app. simpl. lia.
Qed.



End Running.

(** ** Programs and Close *)

Section Flush.
Context `{RT : GoRuntime}.





Lemma text_line_same (a b : logger) (e : entry) :
  same_config a b -> heap b = heap a -> text_line b e = text_line a e.
Proof.
  intros (Hl & Ht & Hp & _) Hh. unfold text_line, leveled.
  by rewrite Hl, Ht, Hp, Hh.
Qed.

(** On a running engine [Close] returns, with the queue drained and
    [doneChan] closed. *)
Lemma Close_running (sent : list entry) (a : logger) :
  running sent a ->
  exists a2,
    Close a = (Done tt, a2) /\
    entChan a2 = [] /\ doneChan_closed a2 = true /\
    entChan_closed a2 = true /\ same_config a a2 /\
    match writeFunc a with
    | writeTextFn =>
        out a2 = text_line a2 <$> sent /\ heap a2 = heap a /\
        stdout a2 = stdout a
    | writeJSONFn =>
        (length (out a2) + length (stdout a2) = length sent)%nat
    end.
Proof.
  intros (Hd & Hc & Hsent & Hq & Hacc).
  set (ac := set_entChan_closed true a).
  assert (Close a = await_doneChan (S (length (entChan a))) ac) as ->.
  { unfold Close. unfold mbind, go_bind at 1. unfold close_entChan.
    by rewrite Hc. }
  unfold accounts in Hacc.
  destruct (writeFunc a) eqn:Hw.
  - destruct (await_drains_text (entChan a) ac)
      as (a2 & Hrun & Hq2 & Hd2 & Hc2 & Hout & Hhp & Hso & Hcfg); try done.
    { eapply Forall_impl; [exact Hq|]. by intros e [He _]. }
    exists a2. repeat split; try done; try apply Hcfg.
    rewrite Hout.
    change (out ac) with (out a). change (text_line ac) with (text_line a).
    rewrite Hacc. apply list_fmap_ext. intros i e _.
    symmetry. by apply text_line_same.
  - destruct (await_drains_json (entChan a) ac)
      as (a2 & Hrun & Hq2 & Hd2 & Hc2 & Hcount & Hcfg); try done.
    exists a2. repeat split; try done; try apply Hcfg.
    rewrite Hcount. change (out ac) with (out a).
    change (stdout ac) with (stdout a). lia.
Qed.

End Flush.

(** ** The JSON encoder, entry by entry *)

Section JSONTrace.
Context `{RT : GoRuntime}.

Lemma same_user_fields_refl (m : gmap string value) : same_user_fields m m.
Proof. by intros k _. Qed.


Lemma same_user_fields_trans (m1 m2 m3 : gmap string value) :
  same_user_fields m1 m2 -> same_user_fields m2 m3 ->
  same_user_fields m1 m3.
Proof. intros H1 H2 k Hk. by rewrite H1, H2. Qed.



#[global] Instance user_step_refl : Reflexive user_step.
Proof.
  intros a. split; [done|]. intros l _. apply same_user_fields_refl.
Qed.

#[global] Instance user_step_trans : Transitive user_step.
Proof.
  intros a b c [Hl1 H1] [Hl2 H2]. split; [lia|]. intros l Hl.
  eapply same_user_fields_trans; [apply H2; lia | by apply H1].
Qed.


















End JSONTrace.

Section FlushAll.
Context `{RT : GoRuntime}.


End FlushAll.

(** ** Field maps under the text encoder *)


#[global] Instance text_frame_refl : Reflexive text_frame.
Proof. by intros a Hw. Qed.

#[global] Instance text_frame_trans : Transitive text_frame.
Proof.
  intros a b c Hab Hbc Hw. destruct (Hab Hw) as [Hwb Hh1].
  destruct (Hbc Hwb) as [Hwc Hh2]. split; [done|]. auto.
Qed.

Section TextFrame.
Context `{RT : GoRuntime}.

Lemma frame_buf_append s : keeps text_frame (buf_append s).
Proof. by intros a. Qed.

Lemma frame_buf_slice_to n : keeps text_frame (buf_slice_to n).
Proof. intros a. unfold buf_slice_to. by destruct (_ || _). Qed.

Lemma frame_range_map f : keeps text_frame (range_map f).
Proof. by intros a. Qed.

Lemma frame_chan_send e : keeps text_frame (chan_send e).
Proof.
  intros a. unfold chan_send.
  destruct (entChan_closed a); [done|]. by destruct (_ <? _)%nat.
Qed.

Lemma frame_chan_recv : keeps text_frame chan_recv.
Proof.
  intros a. unfold chan_recv. destruct (entChan a); [|done].
  by destruct (entChan_closed a).
Qed.

Lemma frame_close_entChan : keeps text_frame close_entChan.
Proof. intros a. unfold close_entChan. by destruct (entChan_closed a). Qed.

Lemma frame_close_doneChan : keeps text_frame close_doneChan.
Proof. intros a. unfold close_doneChan. by destruct (doneChan_closed a). Qed.

Lemma frame_writeText ent : keeps text_frame (writeText ent).
Proof.
  unfold writeText.
  keeps_steps;
    first [ apply frame_buf_append | apply frame_buf_slice_to
          | apply frame_range_map | by apply keeps_modify ].
Qed.

(** The consumer of a text engine calls the text encoder. *)
Lemma frame_call_writeFunc ent : keeps text_frame (call_writeFunc ent).
Proof.
  intros a Hw. unfold call_writeFunc, mbind, go_bind, get. rewrite Hw.
  by apply frame_writeText.
Qed.

Lemma frame_run_step : keeps text_frame run_step.
Proof.
  unfold run_step.
  keeps_steps;
    first [ apply frame_chan_recv | apply frame_call_writeFunc
          | apply frame_close_doneChan ].
Qed.

Lemma frame_await_doneChan n : keeps text_frame (await_doneChan n).
Proof.
  induction n as [|n IH]; simpl; keeps_steps;
    first [ apply frame_run_step | apply IH ].
Qed.

Lemma frame_Close : keeps text_frame Close.
Proof.
  unfold Close.
  keeps_steps; [apply frame_close_entChan | apply frame_await_doneChan].
Qed.

Lemma frame_call fam md h now fmt v :
  keeps text_frame (call fam md h now fmt v).
Proof.
  destruct fam, md; simpl;
    unfold Print, Println, Printf, Panic, Panicln, Panicf, Fatal, Fatalln,
      Fatalf, Error, Errorln, Errorf, Warn, Warnln, Warnf, Info, Infoln, Infof,
      Debug, Debugln, Debugf, log, logln, logf;
    keeps_steps;
    first [ apply frame_chan_send | apply frame_Close ].
Qed.

Lemma frame_grow (a : logger) (ext : list (gmap string value)) :
  text_frame a (set_heap (heap a ++ ext) a).
Proof.
  intros Hw. split; [done|]. intros l m Hm. logger_simpl.
  by apply lookup_app_l_Some.
Qed.

Lemma frame_exec o : keeps text_frame (exec o).
Proof.
  destruct o as [fam md h now fmt v|h flds|h key v|m| |]; simpl.
  - apply frame_call.
  - intros a. unfold mbind, go_bind. destruct h as [|f]; simpl.
    + reflexivity.
    + destruct (fieldLogger_WithFields_alloc f flds a) as [X ->].
      apply frame_grow.
  - intros a. unfold mbind, go_bind.
    destruct (WithField_run h key v a) as (hnd & ext & ->).
    apply frame_grow.
  - intros a. apply (frame_grow a [m]).
  - apply frame_Close.
  - apply frame_run_step.
Qed.

Lemma frame_exec_all ops : keeps text_frame (exec_all ops).
Proof. apply keeps_for_each; [apply _..|]. apply frame_exec. Qed.

(** X20.  A scoped logger puts its own map in every entry, by
    reference: the entry a call enqueues carries the location the logger
    holds.  On an engine with the text encoder no program of calls,
    derivations, turns of the consumer and Close changes the contents of a
    map that exists; so the fields observed for an entry already enqueued,
    and for the later entries of the same scoped logger, stay what they
    were. *)
Theorem fields_by_reference_text_stable (ops : list op) (a : logger)
    (fam : family) (md : mode) (f : option loc) (now : Z) (fmt : string)
    (v : list value) :
  writeFunc a = writeTextFn ->
  (fam <> FPanic -> fam <> FFatal ->
   forall a', call fam md (Scoped f) now fmt v a = (Done tt, a') ->
     a' = a \/
     exists e, fields e = f /\ a' = set_entChan (entChan a ++ [e]) a) /\
  writeFunc (exec_all ops a).2 = writeTextFn /\
  (forall l m, heap a !! l = Some m ->
     heap (exec_all ops a).2 !! l = Some m) /\
  (forall g, fields_valid (heap a) g ->
     deref (heap (exec_all ops a).2) g = deref (heap a) g).
Proof.
  intros Hw.
  destruct (frame_exec_all ops a Hw) as [Hw' Hheap].
  repeat split; try done.
  - intros Hp Hf a' Hcall. rewrite call_send in Hcall by done.
    destruct (admitted a fam).
    + right. eexists. split; [|by apply chan_send_done in Hcall as [_ ->]].
      done.
    + left. by injection Hcall as <-.
  - intros [l|] Hv; [|done]. simpl in *.
    destruct (lookup_lt_is_Some_2 _ _ Hv) as [m Hm].
    by rewrite (Hheap _ _ Hm), Hm.
Qed.

End TextFrame.

(** ** Panic, Panicln and Panicf *)

Section PanicFamily.
Context `{RT : GoRuntime}.

Lemma LogableAt_PanicLevel (a : logger) :
  NoLevel <= level a -> LogableAt a PanicLevel = true.
Proof.
  intros Hl. apply LogableAt_true. unfold NoLevel, PanicLevel in *. lia.
Qed.

Lemma log_admitted flds lvl now v (a : logger) :
  LogableAt a lvl = true ->
  log flds lvl now v a
  = chan_send {| ts := now; elevel := lvl; format := ""; args := v;
                 fields := flds; ln := false |} a.
Proof. intros Hl. unfold log, mbind, go_bind, get. by rewrite Hl. Qed.

Lemma logln_admitted flds lvl now v (a : logger) :
  LogableAt a lvl = true ->
  logln flds lvl now v a
  = chan_send {| ts := now; elevel := lvl; format := ""; args := v;
                 fields := flds; ln := true |} a.
Proof. intros Hl. unfold logln, mbind, go_bind, get. by rewrite Hl. Qed.

Lemma logf_admitted flds lvl now fmt v (a : logger) :
  LogableAt a lvl = true ->
  logf flds lvl now fmt v a
  = chan_send {| ts := now; elevel := lvl; format := fmt; args := v;
                 fields := flds; ln := false |} a.
Proof. intros Hl. unfold logf, mbind, go_bind, get. by rewrite Hl. Qed.

(** On a running engine with room in the queue, a call of the Panic family
    enqueues its entry at PanicLevel, waits in [Close] until the consumer
    has drained the queue, and panics: [Panic] and [Panicln] with
    [Sprint] of the arguments, [Panicf] with [Sprintf]. *)
Lemma Panic_family_run (md : mode) (sent : list entry) (a : logger)
    (h : handle) (now : Z) (fmt : string) (v : list value) :
  running sent a ->
  NoLevel <= level a ->
  fields_valid (heap a) (hfields h) ->
  (length (entChan a) < entChan_cap)%nat ->
  exists a2,
    Close (set_entChan (entChan a ++ [entry_of FPanic md h now fmt v]) a)
      = (Done tt, a2) /\
    call FPanic md h now fmt v a
      = (GoPanic (match md with
                  | formatted => Sprintf fmt v
                  | _ => Sprint v
                  end), a2) /\
    entChan a2 = [] /\ doneChan_closed a2 = true.
Proof.
  intros Hrun Hlev Hv Hroom.
  set (e := entry_of FPanic md h now fmt v).
  assert (running (sent ++ [e]) (set_entChan (entChan a ++ [e]) a)) as Hrun'.
  { apply running_send; [done|]. by apply entry_of_ok. }
  destruct (Close_running _ _ Hrun') as (a2 & Hcl & Hq & Hd & _).
  exists a2. split; [done|]. split; [|done].
  assert (chan_send e a = (Done tt, set_entChan (entChan a ++ [e]) a))
    as Hsend.
  { apply chan_send_room; [|done]. by destruct Hrun as (_ & ? & _). }
  pose proof (LogableAt_PanicLevel a Hlev) as Hadm.
  destruct md; simpl; unfold Panic, Panicln, Panicf;
    (erewrite bind_done;
       [|rewrite ?log_admitted, ?logln_admitted, ?logf_admitted by done;
         exact Hsend]);
    (erewrite bind_done; [|exact Hcl]); reflexivity.
Qed.

End PanicFamily.

(** * The theorems at concrete inputs *)

Lemma LogableAt_policy_witness :
  NoLevel <= level text_warn <= DebugLevel /\
  LogableAt text_warn ErrorLevel = true /\
  LogableAt text_warn NoLevel = true /\
  LogableAt text_warn InfoLevel = false /\
  log None InfoLevel 0 [VStr "y"] text_warn = (Done tt, text_warn).
Proof.
  assert (NoLevel <= level text_warn <= DebugLevel) as Hr.
  { vm_compute. split; discriminate. }
  split; [exact Hr|].
  pose proof (LogableAt_policy text_warn ErrorLevel Hr) as [He _].
  pose proof (LogableAt_policy text_warn NoLevel Hr) as [Hn _].
  pose proof (LogableAt_policy text_warn InfoLevel Hr) as [_ Hi].
  split; [apply He; right; right; vm_compute; discriminate|].
  split; [apply Hn; right; left; reflexivity|].
  split; [reflexivity|].
  apply (Hi eq_refl None 0 "" [VStr "y"]).
Defined.

Lemma writeText_line_witness :
  NoLevel <= elevel (info_entry (Some 0%nat) "hello") <= DebugLevel /\
  out (writeText (info_entry (Some 0%nat) "hello") text_debug).2
  = [" INFO hello (foo=bar)" +:+ newline].
Proof.
  assert (NoLevel <= elevel (info_entry (Some 0%nat) "hello") <= DebugLevel)
    as Hr.
  { vm_compute. split; discriminate. }
  split; [exact Hr|].
  destruct (writeText_line text_debug (info_entry (Some 0%nat) "hello") Hr)
    as [Hrun _].
  rewrite Hrun. vm_compute. reflexivity.
Defined.

Lemma WithFields_assoc_witness :
  exists h1 a1 h2 a2 h3 a3,
    WithFields (Scoped (Some 0%nat)) (Some 1%nat)
      (NewText [foo_bar; july; foo_baz; merge_fields july foo_baz]
         NoLevel " " "")
      = (Done h1, a1) /\
    WithFields h1 (Some 2%nat) a1 = (Done h2, a2) /\
    WithFields (Scoped (Some 0%nat)) (Some 3%nat)
      (NewText [foo_bar; july; foo_baz; merge_fields july foo_baz]
         NoLevel " " "")
      = (Done h3, a3) /\
    deref (heap a2) (hfields h2) = deref (heap a3) (hfields h3) /\
    deref (heap a2) (hfields h2)
      = {[ "foo" := VStr "baz"; "July" := VInt 7 ]}.
Proof.
  destruct (WithFields_assoc (Scoped (Some 0%nat)) 1 2 3 july foo_baz
    (NewText [foo_bar; july; foo_baz; merge_fields july foo_baz]
       NoLevel " " "") eq_refl eq_refl eq_refl)
    as (h1 & a1 & h2 & a2 & h3 & a3 & H1 & H2 & H3 & H4 & H5 & _).
  exists h1, a1, h2, a2, h3, a3.
  repeat split; try done.
Defined.

Lemma marshal_failure_drops_entry_witness :
  exists a',
    run_step (set_entChan [info_entry (Some 3%nat) "x"; info_entry None "y"]
                json_debug) = (Done tt, a') /\
    out a' = [] /\
    stdout a'
    = ["Failed to marshal fields to JSON: json: unsupported type: chan int"
       +:+ newline] /\
    entChan a' = [info_entry None "y"] /\
    doneChan_closed a' = false.
Proof.
  destruct (marshal_failure_drops_entry
    (set_entChan [info_entry (Some 3%nat) "x"; info_entry None "y"]
       json_debug)
    (info_entry (Some 3%nat) "x") [info_entry None "y"]
    "json: unsupported type: chan int" eq_refl eq_refl eq_refl)
    as (a' & Hstep & Hout & Hso & Hq & _ & Hd & _).
  - split; [vm_compute; split; discriminate | vm_compute; lia].
  - vm_compute. reflexivity.
  - exists a'.
    split; [exact Hstep|]. split; [exact Hout|]. split; [exact Hso|].
    split; [exact Hq|]. exact Hd.
Defined.

Lemma writeJSON_reserved_keys_witness :
  (writeJSON (info_entry (Some 1%nat) "hi") json_debug).1 = Done tt /\
  deref (heap (writeJSON (info_entry (Some 1%nat) "hi") json_debug).2)
    (Some 1%nat)
  = {[ "level" := VStr "info"; "fields.level" := VStr "custom";
       "msg" := VStr "hi" ]}.
Proof.
  assert (entry_ok (heap json_debug) (info_entry (Some 1%nat) "hi")) as Hok.
  { split; [vm_compute; split; discriminate | vm_compute; lia]. }
  destruct (writeJSON_reserved_keys json_debug
              (info_entry (Some 1%nat) "hi") Hok) as (Hrun & _).
  rewrite Hrun. split; [done|]. vm_compute. reflexivity.
Defined.

(** The claim C5 as stated fails on an error value: the value kept under
    fields.level is the message of the error, a string, and not the error
    value the map held under level. *)
Lemma reserved_key_error_value_replaced :
  deref (heap json_debug) (Some 2%nat) !! "level" = Some (VErr "boom") /\
  (writeJSON (info_entry (Some 2%nat) "hi") json_debug).1 = Done tt /\
  deref (heap (writeJSON (info_entry (Some 2%nat) "hi") json_debug).2)
    (Some 2%nat) !! "level" = Some (VStr "info") /\
  deref (heap (writeJSON (info_entry (Some 2%nat) "hi") json_debug).2)
    (Some 2%nat) !! "fields.level" = Some (VStr "boom") /\
  VStr "boom" <> VErr "boom".
Proof. vm_compute. repeat split; discriminate. Qed.





Lemma fields_by_reference_text_stable_witness :
  writeFunc text_debug = writeTextFn /\
  deref (heap (exec_all (two_prints ++ [DoWithField (Scoped (Some 0%nat))
                                          "k" (VInt 1); DoClose])
                 text_debug).2) (Some 0%nat)
  = foo_bar.
Proof.
  split; [reflexivity|].
  destruct (fields_by_reference_text_stable
    (two_prints ++ [DoWithField (Scoped (Some 0%nat)) "k" (VInt 1); DoClose])
    text_debug FPrint plain None 0 "" [] eq_refl) as (_ & _ & _ & Hd).
  rewrite (Hd (Some 0%nat)); [reflexivity|]. vm_compute. lia.
Defined.

(** C2, at an input where the code departs from it.  A scoped logger is
    derived from the engine with the map foo=bar of the caller; it holds
    that very map, and so do the entries of its calls.  It logs first at
    Info and then prints second; the engine itself prints second as well.
    With the JSON encoder the consumer writes time, level and msg, and the
    fields.* counterparts, into the map of the entry in place, which is the
    map of the scoped logger: the line of its Print, an entry without a
    level, carries level info and, under fields.msg, the message of the
    entry before it, where the Print of the engine gives msg alone; and
    the map of the scoped logger keeps these keys for the entries to
    come. *)
Theorem scoped_json_entry_carries_earlier_entry :
  WithFields Base (Some 0%nat) json_debug
  = (Done (Scoped (Some 0%nat)), json_debug) /\
  deref (heap json_debug) (Some 0%nat) = {[ "foo" := VStr "bar" ]} /\
  enqueued json_debug info_then_print
  = [{| ts := 1; elevel := InfoLevel; format := ""; args := [VStr "first"];
        fields := Some 0%nat; ln := false |};
     {| ts := 2; elevel := NoLevel; format := ""; args := [VStr "second"];
        fields := Some 0%nat; ln := false |};
     {| ts := 3; elevel := NoLevel; format := ""; args := [VStr "second"];
        fields := None; ln := false |}] /\
  (exec_all info_then_print json_debug).1 = Done tt /\
  out (exec_all info_then_print json_debug).2
  = ["{" +:+ quoted "foo" +:+ ":" +:+ quoted "bar" +:+ ","
     +:+ quoted "level" +:+ ":" +:+ quoted "info" +:+ ","
     +:+ quoted "msg" +:+ ":" +:+ quoted "first" +:+ "}" +:+ newline;
     "{" +:+ quoted "fields.msg" +:+ ":" +:+ quoted "first" +:+ ","
     +:+ quoted "foo" +:+ ":" +:+ quoted "bar" +:+ ","
     +:+ quoted "level" +:+ ":" +:+ quoted "info" +:+ ","
     +:+ quoted "msg" +:+ ":" +:+ quoted "second" +:+ "}" +:+ newline;
     "{" +:+ quoted "msg" +:+ ":" +:+ quoted "second" +:+ "}" +:+ newline] /\
  deref (heap (exec_all info_then_print json_debug).2) (Some 0%nat)
  = {[ "foo" := VStr "bar"; "level" := VStr "info";
       "fields.msg" := VStr "first"; "msg" := VStr "second" ]}.
Proof. vm_compute. repeat split. Qed.

(** C8, at an input where the code departs from it.  [Panicln] on the
    arguments a and b logs the entry at PanicLevel, and [Close] has the
    consumer write its line, whose message is the arguments joined with a
    space as Println joins them; the call then panics with the arguments
    joined as Print joins them, without the space: the payload is not the
    rendered message of the call. *)
Theorem Panicln_payload_is_not_the_message :
  (Panicln Base 0 [VStr "a"; VStr "b"] text_debug).1 = GoPanic "ab" /\
  out (Panicln Base 0 [VStr "a"; VStr "b"] text_debug).2
  = [" PANIC a b" +:+ newline] /\
  doneChan_closed (Panicln Base 0 [VStr "a"; VStr "b"] text_debug).2 = true /\
  rendered (entry_of FPanic line Base 0 "" [VStr "a"; VStr "b"]) = "a b" /\
  Sprint [VStr "a"; VStr "b"] = "ab".
Proof. vm_compute. repeat split. Qed.

(** * Further properties of the engine *)

(** ** Calls that do not return: the Panic and Fatal families *)

Section Terminal.
Context `{RT : GoRuntime}.

Lemma set_entChan_same (a : logger) : set_entChan (entChan a) a = a.
Proof. unfold set_entChan. apply logger_eta. Qed.

Lemma log_run flds lvl now v (a : logger) :
  log flds lvl now v a
  = if LogableAt a lvl
    then chan_send {| ts := now; elevel := lvl; format := ""; args := v;
                      fields := flds; ln := false |} a
    else (Done tt, a).
Proof. unfold log, mbind, go_bind, get. by destruct (LogableAt a lvl). Qed.

Lemma logln_run flds lvl now v (a : logger) :
  logln flds lvl now v a
  = if LogableAt a lvl
    then chan_send {| ts := now; elevel := lvl; format := ""; args := v;
                      fields := flds; ln := true |} a
    else (Done tt, a).
Proof. unfold logln, mbind, go_bind, get. by destruct (LogableAt a lvl). Qed.

Lemma logf_run flds lvl now fmt v (a : logger) :
  logf flds lvl now fmt v a
  = if LogableAt a lvl
    then chan_send {| ts := now; elevel := lvl; format := fmt; args := v;
                      fields := flds; ln := false |} a
    else (Done tt, a).
Proof. unfold logf, mbind, go_bind, get. by destruct (LogableAt a lvl). Qed.

Lemma leveled_call_run fam md h now fmt v (a : logger) :
  leveled_call fam md h now fmt v a
  = if LogableAt a (family_level fam)
    then chan_send (entry_of fam md h now fmt v) a
    else (Done tt, a).
Proof.
  destruct md; simpl; [apply log_run | apply logln_run | apply logf_run].
Qed.

(** On a running engine with room in the queue: the leveled call enqueues
    its entry when the threshold admits it, and the [Close] that follows
    returns once the consumer has drained the queue. *)
Lemma leveled_then_Close (fam : family) (md : mode) (sent : list entry)
    (a : logger) (h : handle) (now : Z) (fmt : string) (v : list value) :
  running sent a ->
  fields_valid (heap a) (hfields h) ->
  (length (entChan a) < entChan_cap)%nat ->
  let logged := if LogableAt a (family_level fam)
                then [entry_of fam md h now fmt v] else [] in
  exists a2,
    Close (set_entChan (entChan a ++ logged) a) = (Done tt, a2) /\
    (forall B (k : go B),
       (leveled_call fam md h now fmt v ;; Close ;; k) a = k a2) /\
    entChan a2 = [] /\ entChan_closed a2 = true /\
    doneChan_closed a2 = true /\
    (writeFunc a = writeTextFn ->
       out a2 = text_line a2 <$> (sent ++ logged)) /\
    (writeFunc a = writeJSONFn ->
       (length (out a2) + length (stdout a2) = length (sent ++ logged))%nat).
Proof.
  intros Hrun Hv Hroom logged.
  set (e := entry_of fam md h now fmt v) in *.
  set (a1 := set_entChan (entChan a ++ logged) a).
  assert (running (sent ++ logged) a1) as Hrun1.
  { unfold a1, logged. destruct (LogableAt a (family_level fam)).
    - apply running_send; [done|]. by apply entry_of_ok.
    - by rewrite !app_nil_r, set_entChan_same. }
  assert (leveled_call fam md h now fmt v a = (Done tt, a1)) as Hlog.
  { rewrite leveled_call_run. unfold a1, logged. fold e.
    destruct (LogableAt a (family_level fam)).
    - apply chan_send_room; [|done]. by destruct Hrun as (_ & ? & _).
    - by rewrite app_nil_r, set_entChan_same. }
  destruct (Close_running _ _ Hrun1) as (a2 & Hcl & Hq & Hd & Hc & _ & Hres).
  exists a2. split; [done|]. split.
  { intros B k. erewrite bind_done; [|exact Hlog].
    erewrite bind_done; [|exact Hcl]. done. }
  do 3 (split; [done|]).
  change (writeFunc a1) with (writeFunc a) in Hres.
  split; intros Hw; rewrite Hw in Hres; [apply Hres | done].
Qed.

(** X1.  On a running engine with room in the queue, Fatal, Fatalln and
    Fatalf (of the engine and of a scoped logger) end the program with
    os.Exit(1), and only after [Close] has returned: the entry of the call,
    at FatalLevel, was enqueued if the threshold admits that level, every
    entry sent before and this one have been handed to the encoder (with
    the text encoder the sink holds exactly their lines, in order), the
    queue is empty and the consumer has left.  A threshold in range filters
    the entry out exactly when it is PanicLevel; the call still closes the
    engine and exits. *)
Theorem Fatal_family_exits (md : mode) (sent : list entry) (a : logger)
    (h : handle) (now : Z) (fmt : string) (v : list value) :
  running sent a ->
  fields_valid (heap a) (hfields h) ->
  (length (entChan a) < entChan_cap)%nat ->
  let logged := if LogableAt a FatalLevel
                then [entry_of FFatal md h now fmt v] else [] in
  exists a2,
    call FFatal md h now fmt v a = (OsExit 1, a2) /\
    Close (set_entChan (entChan a ++ logged) a) = (Done tt, a2) /\
    entChan a2 = [] /\ entChan_closed a2 = true /\
    doneChan_closed a2 = true /\
    (writeFunc a = writeTextFn ->
       out a2 = text_line a2 <$> (sent ++ logged)) /\
    (writeFunc a = writeJSONFn ->
       (length (out a2) + length (stdout a2) = length (sent ++ logged))%nat) /\
    (NoLevel <= level a ->
       (LogableAt a FatalLevel = false <-> level a = PanicLevel)).
Proof.
  intros Hrun Hv Hroom logged.
  destruct (leveled_then_Close FFatal md sent a h now fmt v Hrun Hv Hroom)
    as (a2 & Hcl & Hk & Hq & Hc & Hd & Ht & Hj).
  exists a2. split.
  { destruct md; apply (Hk unit (os_Exit 1)). }
  do 6 (split; [done|]).
  intros Hl. unfold LogableAt, NoLevel, FatalLevel, PanicLevel in *.
  destruct (Z.eqb_spec (level a) 0) as [E|E]; simpl.
  - split; [done | lia].
  - destruct (Z.ltb_spec (level a) 2); split; try done; lia.
Qed.

(** X2.  On a running engine with room in the queue and a threshold in
    range, Panic, Panicln and Panicf (of the engine and of a scoped logger)
    are never filtered: the entry of the call is enqueued at PanicLevel,
    [Close] returns once the consumer has handed every entry sent, this one
    last, to the encoder (with the text encoder the sink holds exactly
    their lines, in order), and then the call panics, Panic and Panicln
    with fmt.Sprint of the arguments and Panicf with fmt.Sprintf of the
    format and the arguments. *)
Theorem Panic_family_payload (md : mode) (sent : list entry) (a : logger)
    (h : handle) (now : Z) (fmt : string) (v : list value) :
  running sent a ->
  NoLevel <= level a ->
  fields_valid (heap a) (hfields h) ->
  (length (entChan a) < entChan_cap)%nat ->
  let e := entry_of FPanic md h now fmt v in
  exists a2,
    call FPanic md h now fmt v a
      = (GoPanic (match md with
                  | formatted => Sprintf fmt v
                  | _ => Sprint v
                  end), a2) /\
    Close (set_entChan (entChan a ++ [e]) a) = (Done tt, a2) /\
    elevel e = PanicLevel /\
    entChan a2 = [] /\ entChan_closed a2 = true /\
    doneChan_closed a2 = true /\
    (writeFunc a = writeTextFn -> out a2 = text_line a2 <$> (sent ++ [e])) /\
    (writeFunc a = writeJSONFn ->
       (length (out a2) + length (stdout a2) = length (sent ++ [e]))%nat).
Proof.
  intros Hrun Hl Hv Hroom e.
  destruct (leveled_then_Close FPanic md sent a h now fmt v Hrun Hv Hroom)
    as (a2 & Hcl & Hk & Hq & Hc & Hd & Ht & Hj).
  simpl family_level in *. rewrite (LogableAt_PanicLevel a Hl) in *.
  exists a2. split.
  { destruct md; simpl call; unfold Panic, Panicln, Panicf;
      [apply (Hk unit (panic (Sprint v)))
      |apply (Hk unit (panic (Sprint v)))
      |apply (Hk unit (panic (Sprintf fmt v)))]. }
  split; [done|]. split; [done|]. do 4 (split; [done|]). done.
Qed.

End Terminal.

(** ** After Close *)

Section AfterClose.
Context `{RT : GoRuntime}.

Lemma Close_closed (a : logger) :
  entChan_closed a = true -> Close a = (GoPanic "close of closed channel", a).
Proof.
  intros Hc. unfold Close, mbind, go_bind, close_entChan. by rewrite Hc.
Qed.

(** X3.  [Close] is final.  On a running engine it returns once the queue is
    drained; after that the consumer is gone (a turn of it does nothing),
    the sink receives nothing more, and a second [Close] panics with
    "close of closed channel", leaving everything as the first left it. *)
Theorem Close_twice_panics (sent : list entry) (a : logger) :
  running sent a ->
  exists a2,
    Close a = (Done tt, a2) /\
    Close a2 = (GoPanic "close of closed channel", a2) /\
    run_step a2 = (Blocked, a2) /\
    (Close ;; Close) a = (GoPanic "close of closed channel", a2).
Proof.
  intros Hrun.
  destruct (Close_running _ _ Hrun) as (a2 & Hcl & Hq & Hd & Hc & _).
  exists a2. split; [done|].
  split; [by apply Close_closed|]. split.
  - unfold run_step, mbind, go_bind, get. by rewrite Hd.
  - erewrite bind_done; [|exact Hcl]. by apply Close_closed.
Qed.

(** X4.  Once the channel is closed (after [Close], or after a Panic or
    Fatal call that was recovered), a logging call does not enqueue
    anything and leaves the whole state as it is: a call of the Print
    family, and a leveled call that the threshold admits, panic with
    "send on closed channel" (for Panic and Fatal calls in place of their
    own panic or exit); a leveled call that the threshold filters out
    returns normally, except that Panic and Fatal calls, which go on to
    [Close], then panic with "close of closed channel". *)
Theorem call_on_closed_channel (fam : family) (md : mode) (h : handle)
    (now : Z) (fmt : string) (v : list value) (a : logger) :
  entChan_closed a = true ->
  call fam md h now fmt v a = (on_closed_channel a fam, a).
Proof.
  intros Hc.
  assert (forall e, chan_send e a = (GoPanic "send on closed channel", a))
    as Hsend.
  { intros e. unfold chan_send. by rewrite Hc. }
  assert (fam = FPanic \/ fam = FFatal \/ (fam <> FPanic /\ fam <> FFatal))
    as [-> | [-> | [Hp Hf]]] by (destruct fam; auto).
  - unfold on_closed_channel, admitted. simpl family_level.
    assert (forall B (k : go B),
      (leveled_call FPanic md h now fmt v ;; Close ;; k) a
      = (if LogableAt a PanicLevel then GoPanic "send on closed channel"
         else GoPanic "close of closed channel", a)) as Hk.
    { intros B k. unfold mbind, go_bind at 1.
      rewrite leveled_call_run. simpl family_level.
      destruct (LogableAt a PanicLevel); [by rewrite Hsend|].
      unfold mbind, go_bind. by rewrite Close_closed. }
    destruct md; simpl call; unfold Panic, Panicln, Panicf;
      [apply (Hk unit (panic (Sprint v)))
      |apply (Hk unit (panic (Sprint v)))
      |apply (Hk unit (panic (Sprintf fmt v)))].
  - unfold on_closed_channel, admitted. simpl family_level.
    assert (forall B (k : go B),
      (leveled_call FFatal md h now fmt v ;; Close ;; k) a
      = (if LogableAt a FatalLevel then GoPanic "send on closed channel"
         else GoPanic "close of closed channel", a)) as Hk.
    { intros B k. unfold mbind, go_bind at 1.
      rewrite leveled_call_run. simpl family_level.
      destruct (LogableAt a FatalLevel); [by rewrite Hsend|].
      unfold mbind, go_bind. by rewrite Close_closed. }
    destruct md; apply (Hk unit (os_Exit 1)).
  - rewrite call_send by done. unfold on_closed_channel.
    destruct (admitted a fam); [apply Hsend|]. by destruct fam.
Qed.

End AfterClose.

(** ** The encoders and the derivations leave the channels alone *)

#[global] Instance same_channel_refl : Reflexive same_channel.
Proof. by intros a. Qed.

#[global] Instance same_channel_trans : Transitive same_channel.
Proof.
  intros a b c (?&?&?) (?&?&?). unfold same_channel.
  repeat split; congruence.
Qed.

#[global] Instance inv_step_refl : Reflexive inv_step.
Proof. intros a Ha. exact Ha. Qed.

#[global] Instance inv_step_trans : Transitive inv_step.
Proof. intros a b c Hab Hbc Ha. apply Hbc, Hab, Ha. Qed.

Section Channels.
Context `{RT : GoRuntime}.

Lemma channel_buf_append s : keeps same_channel (buf_append s).
Proof. by intros a. Qed.

Lemma channel_buf_slice_to n : keeps same_channel (buf_slice_to n).
Proof. intros a. unfold buf_slice_to. by destruct (_ || _). Qed.

Lemma channel_make_map : keeps same_channel make_map.
Proof. by intros a. Qed.

Lemma channel_new_fields m : keeps same_channel (new_fields m).
Proof. by intros a. Qed.

Lemma channel_map_store l k v : keeps same_channel (map_store l k v).
Proof. by intros a. Qed.

Lemma channel_map_load f k : keeps same_channel (map_load f k).
Proof. by intros a. Qed.

Lemma channel_range_map f : keeps same_channel (range_map f).
Proof. by intros a. Qed.

Lemma channel_keep_under l key ext : keeps same_channel (keep_under l key ext).
Proof.
  unfold keep_under.
  keeps_steps; apply channel_map_load || apply channel_map_store.
Qed.

Lemma channel_writeText ent : keeps same_channel (writeText ent).
Proof.
  unfold writeText.
  keeps_steps;
    first [ apply channel_buf_append | apply channel_buf_slice_to
          | apply channel_range_map | by apply keeps_modify ].
Qed.

Lemma channel_writeJSON ent : keeps same_channel (writeJSON ent).
Proof.
  unfold writeJSON.
  keeps_steps;
    first [ apply channel_make_map | apply channel_range_map
          | apply channel_map_store | apply channel_keep_under
          | by apply keeps_modify ].
Qed.

Lemma channel_call_writeFunc ent : keeps same_channel (call_writeFunc ent).
Proof.
  unfold call_writeFunc.
  keeps_steps; [apply channel_writeText | apply channel_writeJSON].
Qed.

Lemma channel_WithFields h flds : keeps same_channel (WithFields h flds).
Proof.
  destruct h; simpl; unfold logger_WithFields, fieldLogger_WithFields;
    keeps_steps;
    first [ apply channel_make_map | apply channel_range_map
          | apply channel_map_store ].
Qed.

Lemma channel_WithField h key v : keeps same_channel (WithField h key v).
Proof.
  unfold WithField.
  keeps_steps;
    first [ apply channel_make_map | apply channel_map_store
          | apply channel_WithFields ].
Qed.

(** ** What holds of the channel in every state a program reaches *)

Lemma chan_inv_same (a b : logger) :
  same_channel a b -> chan_inv a -> chan_inv b.
Proof. intros (Hq & Hc & Hd). unfold chan_inv. by rewrite Hq, Hc, Hd. Qed.

Lemma inv_of_same {A} (m : go A) : keeps same_channel m -> keeps inv_step m.
Proof. intros Hm a Ha. exact (chan_inv_same _ _ (Hm a) Ha). Qed.

Lemma inv_chan_send e : level_ok e -> keeps inv_step (chan_send e).
Proof.
  intros He a Hinv. pose proof Hinv as (Hlen & Hdone & Hlev).
  unfold chan_send.
  destruct (entChan_closed a) eqn:Hc; [done|].
  destruct (Nat.ltb_spec (length (entChan a)) entChan_cap) as [Hlt|Hge];
    [|done].
  simpl. unfold chan_inv. logger_simpl. split; [|split].
  - rewrite length_app. simpl. lia.
  - intros Hd. destruct (Hdone Hd). congruence.
  - apply Forall_app. split; [done|]. by apply Forall_singleton.
Qed.

Lemma inv_close_entChan : keeps inv_step close_entChan.
Proof.
  intros a Hinv. pose proof Hinv as (Hlen & Hdone & Hlev).
  unfold close_entChan.
  destruct (entChan_closed a) eqn:Hc; [done|].
  simpl. unfold chan_inv. logger_simpl. split; [done|]. split; [|done].
  intros Hd. by destruct (Hdone Hd).
Qed.

Lemma inv_run_step : keeps inv_step run_step.
Proof.
  intros a Hinv. unfold run_step, mbind, go_bind, get.
  destruct (doneChan_closed a) eqn:Hd; [done|].
  unfold chan_recv.
  destruct (entChan a) as [|e rest] eqn:Hq.
  - destruct (entChan_closed a) eqn:Hc; [|done].
    unfold close_doneChan. rewrite Hd. simpl.
    destruct Hinv as (Hlen & Hdone & Hlev).
    unfold chan_inv. logger_simpl. rewrite Hq, Hc.
    split; [simpl; lia|]. split; [done | by apply Forall_nil].
  - apply (inv_of_same _ (channel_call_writeFunc e)).
    destruct Hinv as (Hlen & Hdone & Hlev). rewrite Hq in *.
    unfold chan_inv. logger_simpl. split; [|split].
    + simpl in Hlen. lia.
    + congruence.
    + by apply Forall_cons in Hlev as [_ ?].
Qed.

Lemma inv_await_doneChan n : keeps inv_step (await_doneChan n).
Proof.
  induction n as [|n IH]; simpl; keeps_steps;
    first [ apply inv_run_step | apply IH ].
Qed.

Lemma inv_Close : keeps inv_step Close.
Proof.
  unfold Close.
  keeps_steps; [apply inv_close_entChan | apply inv_await_doneChan].
Qed.

Lemma inv_leveled_call fam md h now fmt v :
  keeps inv_step (leveled_call fam md h now fmt v).
Proof.
  intros a. rewrite leveled_call_run.
  destruct (LogableAt a (family_level fam)); [|done].
  apply inv_chan_send. unfold level_ok. by destruct fam.
Qed.

Lemma inv_call fam md h now fmt v : keeps inv_step (call fam md h now fmt v).
Proof.
  assert (forall B (k : go B), keeps inv_step k ->
            keeps inv_step (leveled_call fam md h now fmt v ;; Close ;; k))
    as Hk.
  { intros B k Hkk. keeps_steps;
      [apply inv_leveled_call | apply inv_Close | apply Hkk]. }
  assert (fam = FPanic \/ fam = FFatal \/ (fam <> FPanic /\ fam <> FFatal))
    as [-> | [-> | [Hp Hf]]] by (destruct fam; auto).
  - destruct md;
      [apply (Hk unit (panic (Sprint v)))
      |apply (Hk unit (panic (Sprint v)))
      |apply (Hk unit (panic (Sprintf fmt v)))];
      apply keeps_panic; apply _.
  - destruct md; apply (Hk unit (os_Exit 1)); apply keeps_os_Exit; apply _.
  - intros a. rewrite call_send by done.
    destruct (admitted a fam); [|done].
    apply inv_chan_send. unfold level_ok. by destruct fam.
Qed.

Lemma inv_exec o : keeps inv_step (exec o).
Proof.
  destruct o; simpl; keeps_steps;
    first [ apply inv_call
          | apply inv_of_same, channel_WithFields
          | apply inv_of_same, channel_WithField
          | apply inv_of_same, channel_new_fields
          | apply inv_Close | apply inv_run_step ].
Qed.

Lemma inv_exec_all ops : keeps inv_step (exec_all ops).
Proof. apply keeps_for_each; [apply _..|]. apply inv_exec. Qed.

Lemma chan_inv_newLogger hp lvl tl : chan_inv (newLogger hp lvl tl).
Proof.
  unfold chan_inv. simpl. repeat split; try done. unfold entChan_cap. lia.
Qed.

Lemma chan_inv_reached (json : bool) hp lvl tl pfx ops :
  chan_inv (exec_all ops (if json then NewJSON hp lvl tl
                          else NewText hp lvl tl pfx)).2.
Proof.
  apply inv_exec_all. destruct json; apply chan_inv_newLogger.
Qed.

(** X5.  The queue never holds more than the 64 entries the channel was made
    for: in every state a program of calls, derivations, turns of the
    consumer and Close reaches from a logger just constructed, with the
    text or the JSON encoder, at most 64 entries are pending. *)
Theorem queue_within_capacity (json : bool) (hp : list (gmap string value))
    (lvl : Level) (timeLayout pfx : string) (ops : list op) :
  let a0 := if json then NewJSON hp lvl timeLayout
            else NewText hp lvl timeLayout pfx in
  (length (entChan (exec_all ops a0).2) <= 64)%nat.
Proof. intros a0. apply (chan_inv_reached json hp lvl timeLayout pfx ops). Qed.

(** X6.  The consumer leaves only when there is nothing left to write: in
    every state a program reaches from a logger just constructed, if
    [doneChan] is closed then the channel of entries is closed and empty.
    No entry is ever left in the queue behind a consumer that has gone. *)
Theorem consumer_leaves_last (json : bool) (hp : list (gmap string value))
    (lvl : Level) (timeLayout pfx : string) (ops : list op) :
  let a0 := if json then NewJSON hp lvl timeLayout
            else NewText hp lvl timeLayout pfx in
  doneChan_closed (exec_all ops a0).2 = true ->
  entChan_closed (exec_all ops a0).2 = true /\
  entChan (exec_all ops a0).2 = [].
Proof. intros a0. apply (chan_inv_reached json hp lvl timeLayout pfx ops). Qed.

End Channels.

(** ** The levels of the entries in the queue *)

Section QueuedLevels.
Context `{RT : GoRuntime}.

(** A turn of the consumer of a text engine on a queue of well-levelled
    entries returns or finds nothing to do. *)
Lemma run_step_text_outcome (a : logger) :
  writeFunc a = writeTextFn ->
  Forall level_ok (entChan a) ->
  (run_step a).1 = Done tt \/ (run_step a).1 = Blocked.
Proof.
  intros Hw Hlev.
  destruct (doneChan_closed a) eqn:Hd.
  { right. unfold run_step, mbind, go_bind, get. by rewrite Hd. }
  destruct (entChan a) as [|e rest] eqn:Hq.
  - destruct (entChan_closed a) eqn:Hc.
    + left. by rewrite run_step_exit.
    + right. unfold run_step, mbind, go_bind, get, chan_recv.
      by rewrite Hd, Hq, Hc.
  - apply Forall_cons in Hlev as [He _].
    left. by rewrite (run_step_text a e rest Hw Hd Hq He).
Qed.

(** X7.  The consumer never looks a level up out of range.  In every state
    that a program of calls, derivations, turns of the consumer and Close
    reaches from a logger just constructed, with the text or the JSON
    encoder, every entry in the queue carries one of the seven levels: the
    label of its level is found in [levelNamesText], which [writeText]
    indexes, and its name in [levelNames], which [Level.String] indexes for
    [writeJSON].  On a logger with the text encoder a turn of the consumer
    therefore returns (one line written, or [doneChan] closed) or finds
    nothing to do: the label is in range and the slice that drops the
    newline of Sprintln stays within the buffer. *)
Theorem queued_levels_in_range (json : bool) (hp : list (gmap string value))
    (lvl : Level) (timeLayout pfx : string) (ops : list op) :
  let a0 := if json then NewJSON hp lvl timeLayout
            else NewText hp lvl timeLayout pfx in
  let t := NewText hp lvl timeLayout pfx in
  Forall (fun e =>
            NoLevel <= elevel e <= DebugLevel /\
            array_index levelNamesText (elevel e)
              = Done (severity_label (elevel e)) /\
            Level_String (elevel e) = Done (level_name (elevel e)))
    (entChan (exec_all ops a0).2) /\
  ((run_step (exec_all ops t).2).1 = Done tt \/
   (run_step (exec_all ops t).2).1 = Blocked).
Proof.
  intros a0 t. split.
  - destruct (chan_inv_reached json hp lvl timeLayout pfx ops)
      as (_ & _ & Hl).
    eapply Forall_impl; [exact Hl|]. intros e He.
    split; [exact He|]. split;
      [by apply levelNamesText_label | by apply Level_String_name].
  - destruct (chan_inv_reached false hp lvl timeLayout pfx ops)
      as (_ & _ & Hl).
    apply run_step_text_outcome; [|exact Hl].
    pose proof (config_exec_all ops t) as (_ & _ & _ & Hw). exact Hw.
Qed.

End QueuedLevels.

(** ** A full queue *)

Section Backpressure.
Context `{RT : GoRuntime}.

(** X8.  Back-pressure.  On a running engine whose queue holds 64 entries, a
    call of the Print family and a leveled call (other than Panic and
    Fatal) that the threshold admits do not return and change nothing: the
    producer waits.  One turn of the consumer takes the oldest entry, and
    then the same call returns with its entry at the end of the queue, which
    is full again.  A leveled call that the threshold filters out returns
    at once even on a full queue. *)
Theorem full_queue_blocks_until_a_turn (fam : family) (md : mode)
    (h : handle) (now : Z) (fmt : string) (v : list value)
    (sent : list entry) (a : logger) :
  running sent a ->
  length (entChan a) = entChan_cap ->
  fam <> FPanic -> fam <> FFatal ->
  let e := entry_of fam md h now fmt v in
  if admitted a fam then
    call fam md h now fmt v a = (Blocked, a) /\
    exists a1,
      run_step a = (Done tt, a1) /\
      entChan a1 = tail (entChan a) /\
      call fam md h now fmt v a1
        = (Done tt, set_entChan (tail (entChan a) ++ [e]) a1) /\
      length (tail (entChan a) ++ [e]) = entChan_cap
  else call fam md h now fmt v a = (Done tt, a).
Proof.
  intros Hrun Hfull Hp Hf e.
  pose proof Hrun as (Hd & Hc & Hsent & Hq & Hacc).
  rewrite call_send by done.
  assert (forall b, level b = level a -> admitted b fam = admitted a fam)
    as Hadm.
  { intros b Hb. unfold admitted, LogableAt. by rewrite Hb. }
  destruct (admitted a fam) eqn:Ha; [|done].
  split.
  { unfold chan_send. rewrite Hc, Hfull. by rewrite Nat.ltb_irrefl. }
  destruct (entChan a) as [|e0 rest] eqn:Hqa; [done|].
  apply Forall_cons in Hq as [He0 Hq].
  assert (exists a1, run_step a = (Done tt, a1) /\ entChan a1 = rest /\
            entChan_closed a1 = false /\ level a1 = level a)
    as (a1 & Hstep & Hq1 & Hc1 & Hl1).
  { destruct (writeFunc a) eqn:Hw.
    - eexists.
      split; [exact (run_step_text a e0 rest Hw Hd Hqa (proj1 He0))|]. done.
    - eexists. split; [exact (run_step_json a e0 rest Hw Hd Hqa He0)|].
      unfold after_writeJSON. by destruct (json_Marshal _). }
  exists a1. split; [done|]. split; [done|]. simpl tail.
  assert (length (rest ++ [e]) = entChan_cap) as Hlen.
  { rewrite length_app. simpl in *. lia. }
  split; [|done].
  rewrite call_send by done. rewrite (Hadm a1 Hl1), ?Ha.
  rewrite <- Hq1. apply chan_send_room; [done|].
  rewrite Hq1. simpl in Hfull. lia.
Qed.

End Backpressure.

(** ** [WithField] and [WithError] *)

Section MoreDerive.
Context `{RT : GoRuntime}.

Lemma map_literal_run (key : string) (v : value) (a : logger) {B}
    (k : loc -> go B) :
  (l ← make_map; map_store l key v ;; k l) a
  = k (length (heap a)) (set_heap (heap a ++ [{[ key := v ]}]) a).
Proof.
  set (n := length (heap a)).
  assert (make_map a = (Done n, set_heap (<[n := ∅]> (heap a ++ [∅])) a))
    as Hmk.
  { unfold make_map, n. by rewrite insert_snoc. }
  assert (n < length (heap a ++ [∅]))%nat as Hn.
  { rewrite length_app. simpl. lia. }
  erewrite bind_done; [|exact Hmk]. cbv beta.
  go_use map_store_cell; [|done].
  unfold n. by rewrite insert_snoc, insert_empty.
Qed.

(** X9.  WithField(key, value), on the engine and on a scoped logger whose
    map exists, returns a scoped logger whose field set is the field set of
    the receiver with [key] bound to [value] (a binding of [key] in the
    receiver is shadowed); the maps that existed keep their contents, so
    the receiver and the entries it has enqueued are not affected, and
    nothing else of the engine changes. *)
Theorem WithField_fields (h : handle) (key : string) (v : value)
    (a : logger) :
  fields_valid (heap a) (hfields h) ->
  exists hnd a',
    WithField h key v a = (Done hnd, a') /\
    deref (heap a') (hfields hnd)
      = <[key := v]> (deref (heap a) (hfields h)) /\
    (forall l m, heap a !! l = Some m -> heap a' !! l = Some m) /\
    a' = set_heap (heap a') a.
Proof.
  intros Hv. unfold WithField. rewrite map_literal_run.
  destruct h as [|f]; simpl WithFields; simpl hfields in *.
  - eexists _, _. split; [reflexivity|]. logger_simpl. simpl hfields.
    rewrite deref_new. simpl deref. rewrite insert_empty.
    repeat split; try done. intros l m Hm. by apply lookup_snoc_old.
  - rewrite fieldLogger_WithFields_run.
    2:{ logger_simpl. simpl. rewrite length_app. simpl. lia. }
    eexists _, _. split; [reflexivity|]. logger_simpl. simpl hfields.
    rewrite !deref_new. rewrite (deref_app _ _ f Hv).
    repeat split; try done.
    + by rewrite insert_union_singleton_l.
    + intros l m Hm. by do 2 apply lookup_snoc_old.
Qed.

Lemma map_range_singleton (k : string) (v : value) :
  map_range ({[ k := v ]} : gmap string value) = [(k, v)].
Proof.
  apply Permutation_singleton_r. rewrite map_range_perm.
  by rewrite map_to_list_singleton.
Qed.

(** X10.  WithError(err) returns a scoped logger over one new map that binds
    the key "error" to the error and nothing else: called on a scoped
    logger, whose type has no such method of its own, it leaves the fields
    of that logger out.  The maps that existed are untouched.  The text
    encoder renders the field as the group (error=...) with fmt.Sprint of
    the error; the JSON encoder puts the message of the error, a string,
    under "error". *)
Theorem WithError_fields (h : handle) (msg : string) (a : logger)
    (b : logger) (ent : entry) :
  let n := length (heap a) in
  let m : gmap string value := {[ ErrorField := VErr msg ]} in
  WithError h msg a = (Done (Scoped (Some n)), set_heap (heap a ++ [m]) a) /\
  deref (heap a ++ [m]) (Some n) = m /\
  (forall l x, heap a !! l = Some x -> (heap a ++ [m]) !! l = Some x) /\
  fields_text (map_range m) = " (error=" +:+ Sprint [VErr msg] +:+ ")" /\
  json_object b ent m !! ErrorField = Some (VStr msg).
Proof.
  intros n m. split; [|split; [|split; [|split]]].
  - unfold WithError. by rewrite map_literal_run.
  - apply deref_new.
  - intros l x Hx. by apply lookup_snoc_old.
  - unfold m. rewrite map_range_singleton. simpl. unfold field_text. simpl.
    by rewrite string_app_nil_r.
  - unfold json_object.
    rewrite reserve_other by (unfold ErrorField, msgField, extMsgField;
                              discriminate).
    assert ((stringify <$> m) !! ErrorField = Some (VStr msg)) as Hs.
    { unfold m. by rewrite lookup_fmap, lookup_singleton_eq. }
    destruct (leveled b ent);
      [rewrite reserve_other
         by (unfold ErrorField, levelField, extLevelField; discriminate)|];
      (destruct (tsLayout b =? "")%string;
       [|rewrite reserve_other
           by (unfold ErrorField, timeField, extTimeField; discriminate)]);
      exact Hs.
Qed.

End MoreDerive.

(** ** The JSON object, apart from the reserved keys *)

Section JSONObject.
Context `{RT : GoRuntime}.

Lemma reserve_is_Some (key ext k : string) (v : value)
    (m : gmap string value) :
  is_Some (m !! k) -> is_Some (reserve key ext v m !! k).
Proof.
  intros Hk. unfold reserve.
  destruct (decide (k = key)) as [->|Hne];
    [by rewrite lookup_insert_eq|].
  rewrite lookup_insert_ne by done.
  destruct (m !! key); [|done].
  destruct (decide (k = ext)) as [->|Hne'];
    [by rewrite lookup_insert_eq | by rewrite lookup_insert_ne].
Qed.

(** X11.  The JSON encoder keeps every field of the entry.  The object it
    hands to json.Marshal has, under every key other than msg, time, level
    and their fields.* counterparts, the value the map of the entry has
    (the message in place of an error value) or nothing if the map has
    nothing; the same holds of time and fields.time when the layout is
    empty, and of level and fields.level when the logger or the entry is
    not leveled; and no key of the map is missing from the object. *)
Theorem writeJSON_keeps_other_fields (a : logger) (ent : entry) :
  entry_ok (heap a) ent ->
  let m := deref (heap a) (fields ent) in
  let obj := json_object a ent m in
  writeJSON ent a = (Done tt, after_writeJSON a ent) /\
  (forall k,
     k <> msgField -> k <> extMsgField -> k <> timeField ->
     k <> extTimeField -> k <> levelField -> k <> extLevelField ->
     obj !! k = stringify <$> (m !! k)) /\
  ((tsLayout a =? "")%string = true ->
     obj !! timeField = stringify <$> (m !! timeField) /\
     obj !! extTimeField = stringify <$> (m !! extTimeField)) /\
  (leveled a ent = false ->
     obj !! levelField = stringify <$> (m !! levelField) /\
     obj !! extLevelField = stringify <$> (m !! extLevelField)) /\
  (forall k, is_Some (m !! k) -> is_Some (obj !! k)).
Proof.
  intros Hok m obj. split; [by apply writeJSON_run|].
  assert (forall k, (stringify <$> m) !! k = stringify <$> (m !! k)) as Hs.
  { intros k. apply lookup_fmap. }
  unfold obj, json_object. split; [|split; [|split]].
  - intros k H1 H2 H3 H4 H5 H6. rewrite reserve_other by done.
    destruct (leveled a ent); [rewrite reserve_other by done|];
      (destruct (tsLayout a =? "")%string;
       [|rewrite reserve_other by done]); apply Hs.
  - intros ->.
    rewrite !(reserve_other msgField extMsgField)
      by (unfold msgField, extMsgField, timeField, extTimeField;
          discriminate).
    destruct (leveled a ent);
      [rewrite !(reserve_other levelField extLevelField)
         by (unfold levelField, extLevelField, timeField, extTimeField;
             discriminate)|];
      split; apply Hs.
  - intros ->.
    rewrite !(reserve_other msgField extMsgField)
      by (unfold msgField, extMsgField, levelField, extLevelField;
          discriminate).
    destruct (tsLayout a =? "")%string;
      [|rewrite !(reserve_other timeField extTimeField)
          by (unfold levelField, extLevelField, timeField, extTimeField;
              discriminate)];
      split; apply Hs.
  - intros k Hk. apply reserve_is_Some.
    assert (is_Some ((stringify <$> m) !! k)) as Hk'.
    { rewrite Hs. destruct Hk as [x ->]. by eexists. }
    destruct (leveled a ent); [apply reserve_is_Some|];
      (destruct (tsLayout a =? "")%string; [|apply reserve_is_Some]);
      exact Hk'.
Qed.

(** X12.  For an entry without fields (every entry of the engine itself,
    as opposed to a scoped logger) the JSON encoder makes a new map, and the
    object it encodes holds exactly: msg, the message (Sprintf of the
    format and the arguments if there is a format, Sprint of the arguments
    otherwise, also for a line-mode entry); level, the lowercase name of
    the level, when both the logger and the entry are leveled; and time,
    the formatted timestamp, when the layout is not empty.  No map that
    existed is touched, and the sink receives the encoding and a newline
    in one write (or the standard output one diagnostic). *)
Theorem writeJSON_fieldless_entry (a : logger) (ent : entry) :
  level_ok ent ->
  fields ent = None ->
  let msg := VStr (if negb (format ent =? "")%string
                   then Sprintf (format ent) (args ent)
                   else Sprint (args ent)) in
  let stamp : gmap string value :=
    if (tsLayout a =? "")%string then ∅
    else {[ timeField := VStr (time_Format (ts ent) (tsLayout a)) ]} in
  let obj : gmap string value :=
    <[msgField := msg]>
      (if leveled a ent
       then <[levelField := VStr (level_name (elevel ent))]> stamp
       else stamp) in
  writeJSON ent a
  = (Done tt,
     match json_Marshal obj with
     | inl encoded =>
         set_out (out a ++ [encoded +:+ newline])
           (set_heap (heap a ++ [obj]) a)
     | inr err =>
         set_stdout (stdout a ++
           [Sprintln [VStr "Failed to marshal fields to JSON:"; VErr err]])
           (set_heap (heap a ++ [obj]) a)
     end).
Proof.
  intros Hl Hf msg stamp obj.
  rewrite writeJSON_run by (split; [done | by rewrite Hf]).
  unfold after_writeJSON. rewrite Hf. simpl deref.
  assert (json_object a ent ∅ = obj) as ->.
  { unfold json_object, obj, stamp, msg. rewrite fmap_empty.
    unfold reserve.
    destruct (tsLayout a =? "")%string; destruct (leveled a ent);
      rewrite ?lookup_insert_ne, ?lookup_empty
        by (unfold msgField, levelField, timeField; discriminate);
      rewrite ?insert_empty; try done.
    all: rewrite ?lookup_insert_ne, ?lookup_singleton_ne, ?lookup_empty
        by (unfold msgField, levelField, timeField; discriminate); done. }
  by rewrite insert_snoc.
Qed.

End JSONObject.

(** ** From the call to the sink *)

Section CallToSink.
Context `{RT : GoRuntime}.

(** X13.  From a call to the write, on an engine with the text encoder
    whose consumer is idle (the queue open and empty).  A call other than
    Panic and Fatal that is admitted, followed by one turn of the consumer,
    results in exactly one write to the sink, the line of the entry of the
    call, and leaves the queue empty again; a call that the threshold
    filters out results in nothing, and the consumer finds nothing to do.
    A call of the Print family is admitted whatever the threshold, and its
    line carries one space in place of a severity label. *)
Theorem call_then_turn_text (fam : family) (md : mode) (h : handle)
    (now : Z) (fmt : string) (v : list value) (a : logger) :
  fam <> FPanic -> fam <> FFatal ->
  writeFunc a = writeTextFn ->
  doneChan_closed a = false ->
  entChan_closed a = false ->
  entChan a = [] ->
  let e := entry_of fam md h now fmt v in
  (call fam md h now fmt v ;; run_step) a
  = (if admitted a fam
     then (Done tt, set_out (out a ++ [text_line a e])
                      (set_buf (text_line a e) a))
     else (Blocked, a)) /\
  (fam = FPrint -> admitted a fam = true /\ leveled a e = false).
Proof.
  intros Hp Hf Hw Hd Hc Hq e. split.
  - unfold mbind, go_bind at 1. rewrite call_send by done. fold e.
    destruct (admitted a fam).
    + rewrite chan_send_room by (rewrite ?Hq; unfold entChan_cap; simpl;
                                 done || lia).
      rewrite Hq. simpl app.
      assert (NoLevel <= elevel e <= DebugLevel) as He
        by (unfold e; by destruct fam).
      rewrite (run_step_text (set_entChan [e] a) e [] Hw Hd eq_refl He).
      f_equal. apply logger_ext; try done; logger_simpl; by rewrite ?Hq.
    + unfold run_step, mbind, go_bind, get, chan_recv.
      by rewrite Hd, Hq, Hc.
  - intros ->. split; [done|]. unfold leveled. simpl.
    by rewrite andb_false_r.
Qed.

End CallToSink.

(** ** Close on a text engine, from every state a program reaches *)

Section CloseReturns.
Context `{RT : GoRuntime}.

(** X18.  On a logger with the text encoder, Close returns when it is the
    first to close the channel.  In every state that a program of calls,
    derivations and turns of the consumer reaches from a logger just
    constructed by NewText, whether or not the program ran to its end: if
    the channel is still open, [Close] returns, and when it does the queue
    is empty, the consumer has left, and the sink holds what it held
    followed by the lines of the entries that were pending, oldest
    first. *)
Theorem text_Close_returns (hp : list (gmap string value))
    (lvl : Level) (timeLayout pfx : string) (ops : list op) :
  let a1 := (exec_all ops (NewText hp lvl timeLayout pfx)).2 in
  entChan_closed a1 = false ->
  exists a2,
    Close a1 = (Done tt, a2) /\
    entChan a2 = [] /\ entChan_closed a2 = true /\
    doneChan_closed a2 = true /\
    out a2 = out a1 ++ (text_line a1 <$> entChan a1).
Proof.
  intros a1 Hopen.
  destruct (chan_inv_reached false hp lvl timeLayout pfx ops)
    as (_ & Hdone & Hlev). fold a1 in Hdone, Hlev.
  assert (doneChan_closed a1 = false) as Hd.
  { destruct (doneChan_closed a1); [|done].
    destruct (Hdone eq_refl). congruence. }
  assert (writeFunc a1 = writeTextFn) as Hw.
  { pose proof (config_exec_all ops (NewText hp lvl timeLayout pfx))
      as (_ & _ & _ & Hw). exact Hw. }
  unfold Close. unfold mbind, go_bind at 1. unfold close_entChan.
  rewrite Hopen. unfold mbind, go_bind, get.
  destruct (await_drains_text (entChan a1) (set_entChan_closed true a1))
    as (a2 & Hrun & Hq & Hd2 & Hc2 & Hout & _); try done.
  exists a2. split; [exact Hrun|]. by repeat split.
Qed.

End CloseReturns.

(** ** The time layout given to the constructors *)

Section TimeLayout.
Context `{RT : GoRuntime}.

(** X19.  The time layout the constructors store is "Jan 02 15:04:05" when
    the one given is empty, and the given one with the surrounding white
    space trimmed otherwise.  On the logger just constructed, the text
    encoder writes the prefix given to NewText followed by the timestamp in
    the stored layout, and no timestamp at all when the stored layout is
    empty (a layout of spaces only); the JSON encoder puts the timestamp in
    the stored layout under time, and when the stored layout is empty it
    leaves under time what the fields of the entry have there. *)
Theorem constructed_time_layout (hp : list (gmap string value))
    (lvl : Level) (timeLayout pfx : string) (ent : entry) :
  let layout := if String.eqb timeLayout "" then "Jan 02 15:04:05"
                else TrimSpace timeLayout in
  let stamp := if String.eqb layout "" then ""
               else time_Format (ts ent) layout in
  let t := NewText hp lvl timeLayout pfx in
  let j := NewJSON hp lvl timeLayout in
  let m := deref hp (fields ent) in
  entry_ok hp ent ->
  tsLayout t = layout /\ tsLayout j = layout /\ prefix t = pfx /\
  out (writeText ent t).2
  = [pfx +:+ stamp +:+
     (if leveled t ent then severity_label (elevel ent) else " ") +:+
     rendered ent +:+ fields_text (map_range m) +:+ newline] /\
  writeJSON ent j = (Done tt, after_writeJSON j ent) /\
  json_object j ent m !! timeField
  = if String.eqb layout "" then stringify <$> (m !! timeField)
    else Some (VStr stamp).
Proof.
  intros layout stamp t j m Hok.
  split; [done|]. split; [done|]. split; [done|]. split; [|split].
  - rewrite writeText_run by apply Hok.
    change (out (Done tt, _).2) with ([] ++ [text_line t ent]).
    unfold text_line.
    change (prefix t) with pfx. change (tsLayout t) with layout.
    reflexivity.
  - by apply writeJSON_run.
  - unfold json_object. change (tsLayout j) with layout.
    rewrite reserve_other
      by (unfold timeField, msgField, extMsgField; discriminate).
    destruct (leveled j ent);
      [rewrite reserve_other
         by (unfold timeField, levelField, extLevelField; discriminate)|];
      (destruct (layout =? "")%string eqn:E;
       [apply lookup_fmap | unfold stamp; rewrite ?E; apply reserve_key]).
Qed.

End TimeLayout.

(** * The first logger *)

Section LegacyLogger.
Import Legacy.
Context `{RT : GoRuntime}.

Lemma legacy_bind_done {A B} (m : Legacy.go A) (k : A -> Legacy.go B) a x a' :
  m a = (Done x, a') -> (m ≫= k) a = k x a'.
Proof. intros Hm. unfold mbind, Legacy.go_bind. by rewrite Hm. Qed.

Lemma legacy_output_run (ent : Legacy.entry) (a : Logger) :
  Legacy.output ent a
  = (Done tt, Legacy.set_out (Legacy.out a ++ [Legacy.line_of a ent])
                (Legacy.set_buf (Legacy.line_of a ent) a)).
Proof.
  unfold Legacy.output, Legacy.line_of, Legacy.rendered, mbind,
    Legacy.go_bind, Legacy.modify, Legacy.get, Legacy.when,
    Legacy.buf_append, Sprintln.
  destruct a as [o b q d tl pf]. simpl.
  destruct (pf =? "")%string eqn:Epf; destruct (tl =? "")%string;
    destruct (Legacy.format ent =? "")%string; destruct (Legacy.ln ent);
    simpl; unfold Legacy.set_out, Legacy.set_buf; simpl;
    rewrite ?string_app_nil_l, ?string_app_nil_r, ?string_app_assoc;
    try apply String.eqb_eq in Epf; subst;
    rewrite ?string_app_nil_l, ?string_app_nil_r, ?string_app_assoc;
    reflexivity.
Qed.

(** X14.  [output] of the first logger makes one write to the sink, of
    exactly these bytes: the prefix, then the formatted timestamp followed
    by one space (nothing when the layout is empty), then the message
    (Sprintf of the format and the arguments when there is a format, the
    arguments joined as Println joins them for a line-mode entry, and as
    Print joins them otherwise), then one newline.  Whatever the buffer
    held before is gone, and the queue and the configuration are as they
    were. *)
Theorem legacy_output_line (ent : Legacy.entry) (a : Logger) :
  Legacy.output ent a
  = (Done tt, Legacy.set_out (Legacy.out a ++ [Legacy.line_of a ent])
                (Legacy.set_buf (Legacy.line_of a ent) a)) /\
  Legacy.line_of a ent
  = Legacy.prefix a +:+
    (if (Legacy.tsLayout a =? "")%string then ""
     else time_Format (Legacy.ts ent) (Legacy.tsLayout a) +:+ " ") +:+
    (if negb (Legacy.format ent =? "")%string
     then Sprintf (Legacy.format ent) (Legacy.args ent)
     else if Legacy.ln ent then Sprintln_operands (Legacy.args ent)
     else Sprint (Legacy.args ent)) +:+
    newline.
Proof. split; [apply legacy_output_run | reflexivity]. Qed.

Lemma legacy_await_done (n : nat) (a : Logger) :
  Legacy.doneChan_closed a = true ->
  Legacy.await_doneChan n a = (Done tt, a).
Proof.
  intros Hd. destruct n; simpl; unfold mbind, Legacy.go_bind, Legacy.get;
    by rewrite Hd.
Qed.

Lemma legacy_await_turn (n : nat) (a a' : Logger) :
  Legacy.doneChan_closed a = false ->
  Legacy.run_step a = (Done tt, a') ->
  Legacy.await_doneChan (S n) a = Legacy.await_doneChan n a'.
Proof.
  intros Hd Hstep. simpl. unfold mbind, Legacy.go_bind, Legacy.get at 1.
  by rewrite Hd, Hstep.
Qed.

Lemma legacy_run_step_entry (a : Logger) (e : Legacy.entry)
    (rest : list (option Legacy.entry)) :
  Legacy.doneChan_closed a = false ->
  Legacy.entChan a = Some e :: rest ->
  Legacy.run_step a
  = (Done tt, Legacy.set_out (Legacy.out a ++ [Legacy.line_of a e])
                (Legacy.set_buf (Legacy.line_of a e)
                   (Legacy.set_entChan rest a))).
Proof.
  intros Hd Hq. unfold Legacy.run_step, mbind, Legacy.go_bind, Legacy.get.
  rewrite Hd, Hq. unfold Legacy.modify. by rewrite legacy_output_run.
Qed.

Lemma legacy_run_step_nil (a : Logger) (rest : list (option Legacy.entry)) :
  Legacy.doneChan_closed a = false ->
  Legacy.entChan a = None :: rest ->
  Legacy.run_step a
  = (Done tt, Legacy.set_doneChan_closed true (Legacy.set_entChan rest a)).
Proof.
  intros Hd Hq. unfold Legacy.run_step, mbind, Legacy.go_bind, Legacy.get.
  rewrite Hd, Hq. unfold Legacy.modify, Legacy.close_doneChan. simpl.
  by rewrite Hd.
Qed.

(** The consumer writes the entries ahead of the nil entry, oldest first,
    and leaves at the nil entry; what is behind it stays in the queue. *)
Lemma legacy_await_drains (pend : list Legacy.entry) :
  forall (a : Logger) (rest : list (option Legacy.entry)) (n : nat),
  Legacy.doneChan_closed a = false ->
  Legacy.entChan a = (Some <$> pend) ++ None :: rest ->
  (length pend < n)%nat ->
  exists a2,
    Legacy.await_doneChan n a = (Done tt, a2) /\
    Legacy.entChan a2 = rest /\ Legacy.doneChan_closed a2 = true /\
    Legacy.out a2 = Legacy.out a ++ (Legacy.line_of a <$> pend) /\
    Legacy.tsLayout a2 = Legacy.tsLayout a /\
    Legacy.prefix a2 = Legacy.prefix a.
Proof.
  induction pend as [|e pend IH]; intros a rest n Hd Hq Hn;
    (destruct n as [|n]; [lia|]).
  - rewrite (legacy_await_turn n a _ Hd (legacy_run_step_nil a rest Hd Hq)).
    rewrite legacy_await_done by done.
    eexists. split; [reflexivity|]. simpl. by rewrite app_nil_r.
  - rewrite (legacy_await_turn n a _ Hd
               (legacy_run_step_entry a e _ Hd Hq)).
    edestruct (IH (Legacy.set_out (Legacy.out a ++ [Legacy.line_of a e])
                     (Legacy.set_buf (Legacy.line_of a e)
                        (Legacy.set_entChan
                           ((Some <$> pend) ++ None :: rest) a))) rest n)
      as (a2 & Hrun & Hq2 & Hd2 & Hout & Hts & Hpf);
      [done | done | simpl in Hn; lia |].
    exists a2. split; [exact Hrun|]. split; [done|]. split; [done|].
    split; [|done]. rewrite Hout. simpl. by rewrite <- app_assoc.
Qed.

Lemma legacy_line_of_same (a b : Logger) (e : Legacy.entry) :
  Legacy.tsLayout b = Legacy.tsLayout a ->
  Legacy.prefix b = Legacy.prefix a ->
  Legacy.line_of b e = Legacy.line_of a e.
Proof. intros Ht Hp. unfold Legacy.line_of. by rewrite Ht, Hp. Qed.

Lemma legacy_chan_send_room (x : option Legacy.entry) (a : Logger) :
  (length (Legacy.entChan a) < Legacy.entChan_cap)%nat ->
  Legacy.chan_send x a
  = (Done tt, Legacy.set_entChan (Legacy.entChan a ++ [x]) a).
Proof.
  intros Hlen. unfold Legacy.chan_send.
  by rewrite (proj2 (Nat.ltb_lt _ _) Hlen).
Qed.

(** With the consumer alive and room in the queue for the nil entry,
    [Close] returns once every entry sent has been written. *)
Lemma legacy_Close_running (sent : list Legacy.entry) (a : Logger) :
  Legacy.running sent a ->
  (length (Legacy.entChan a) < Legacy.entChan_cap)%nat ->
  exists a2,
    Legacy.Close a = (Done tt, a2) /\
    Legacy.entChan a2 = [] /\ Legacy.doneChan_closed a2 = true /\
    Legacy.out a2 = Legacy.line_of a2 <$> sent.
Proof.
  intros (Hd & pend & Hq & Hacc) Hroom.
  unfold Legacy.Close.
  erewrite legacy_bind_done; [|by apply legacy_chan_send_room].
  unfold mbind, Legacy.go_bind, Legacy.get. simpl Legacy.entChan.
  edestruct (legacy_await_drains pend
               (Legacy.set_entChan (Legacy.entChan a ++ [None]) a) []
               (length (Legacy.entChan a ++ [None])))
    as (a2 & Hrun & Hq2 & Hd2 & Hout & Hts & Hpf).
  - done.
  - simpl. by rewrite Hq.
  - rewrite length_app, Hq, length_fmap. simpl. lia.
  - rewrite Hrun. exists a2. do 3 (split; [done|]).
    rewrite Hout. simpl.
    change (Legacy.line_of (Legacy.set_entChan _ a)) with (Legacy.line_of a).
    rewrite Hacc. apply list_fmap_ext. intros i e _.
    symmetry. by apply legacy_line_of_same.
Qed.

Lemma legacy_print_call_send (md : mode) (now : Z) (fmt : string)
    (v : list value) :
  Legacy.print_call md now fmt v
  = Legacy.chan_send (Some (Legacy.entry_of md now fmt v)).
Proof. by destruct md. Qed.

Lemma legacy_running_send (sent : list Legacy.entry) (a : Logger)
    (e : Legacy.entry) :
  Legacy.running sent a ->
  Legacy.running (sent ++ [e])
    (Legacy.set_entChan (Legacy.entChan a ++ [Some e]) a).
Proof.
  intros (Hd & pend & Hq & Hacc). split; [done|].
  exists (pend ++ [e]). simpl. split.
  - by rewrite Hq, fmap_app.
  - change (Legacy.line_of (Legacy.set_entChan _ a)) with (Legacy.line_of a).
    by rewrite !fmap_app, app_assoc, Hacc.
Qed.

Lemma legacy_running_exec (o : Legacy.op) (sent : list Legacy.entry)
    (a a' : Logger) :
  Legacy.running sent a ->
  o <> Legacy.DoClose ->
  Legacy.exec o a = (Done tt, a') ->
  Legacy.running (sent ++ Legacy.enqueues o) a'.
Proof.
  intros Hrun Hne Hex. destruct o as [md now fmt v| |]; [| done |]; simpl in *.
  - rewrite legacy_print_call_send in Hex. unfold Legacy.chan_send in Hex.
    destruct (_ <? _)%nat; [|done]. injection Hex as <-.
    by apply legacy_running_send.
  - rewrite app_nil_r. destruct Hrun as (Hd & pend & Hq & Hacc).
    destruct pend as [|e pend].
    { unfold Legacy.run_step, mbind, Legacy.go_bind, Legacy.get in Hex.
      by rewrite Hd, Hq in Hex. }
    rewrite (legacy_run_step_entry a e _ Hd Hq) in Hex.
    injection Hex as <-. split; [done|]. exists pend. split; [done|].
    simpl.
    change (Legacy.line_of (Legacy.set_out _ _)) with (Legacy.line_of a).
    rewrite fmap_cons in Hacc. by rewrite <- app_assoc.
Qed.

Lemma legacy_exec_all_cons (o : Legacy.op) (ops : list Legacy.op)
    (a a1 : Logger) :
  Legacy.exec_all (o :: ops) a = (Done tt, a1) ->
  exists a', Legacy.exec o a = (Done tt, a') /\
             Legacy.exec_all ops a' = (Done tt, a1).
Proof.
  unfold Legacy.exec_all. simpl. unfold mbind, Legacy.go_bind.
  destruct (Legacy.exec o a) as [[[]| | |] a']; try done. eauto.
Qed.

Lemma legacy_running_exec_all (ops : list Legacy.op) :
  forall (sent : list Legacy.entry) (a a1 : Logger),
  Legacy.running sent a ->
  Forall (fun o => o <> Legacy.DoClose) ops ->
  Legacy.exec_all ops a = (Done tt, a1) ->
  Legacy.running (sent ++ flat_map Legacy.enqueues ops) a1.
Proof.
  induction ops as [|o ops IH]; intros sent a a1 Hrun Hnc Hex.
  - injection Hex as <-. simpl. by rewrite app_nil_r.
  - apply legacy_exec_all_cons in Hex as (a' & Ho & Hrest).
    apply Forall_cons in Hnc as [Hne Hnc].
    pose proof (legacy_running_exec o sent a a' Hrun Hne Ho) as Hrun'.
    pose proof (IH _ _ _ Hrun' Hnc Hrest) as Hfin.
    simpl. by rewrite app_assoc.
Qed.

(** X15.  Close of the first logger flushes.  Take a logger just made by
    [New] and any program of Print, Println and Printf calls and turns of
    the consumer that returns, leaving room in the queue for one more
    item.  Then [Close] returns, and when it does the consumer has left,
    the queue is empty, and the sink holds exactly the lines of the
    entries of the calls, one write each, in the order of the calls. *)
Theorem legacy_Close_drains (pfx timeLayout : string)
    (ops : list Legacy.op) (a1 : Logger) :
  Forall (fun o => o <> Legacy.DoClose) ops ->
  Legacy.exec_all ops (Legacy.New pfx timeLayout) = (Done tt, a1) ->
  (length (Legacy.entChan a1) < Legacy.entChan_cap)%nat ->
  exists a2,
    Legacy.Close a1 = (Done tt, a2) /\
    Legacy.entChan a2 = [] /\ Legacy.doneChan_closed a2 = true /\
    Legacy.out a2 = Legacy.line_of a2 <$> flat_map Legacy.enqueues ops.
Proof.
  intros Hnc Hex Hroom.
  assert (Legacy.running [] (Legacy.New pfx timeLayout)) as Hrun0.
  { split; [done|]. by exists []. }
  pose proof (legacy_running_exec_all ops [] _ a1 Hrun0 Hnc Hex) as Hrun.
  by apply legacy_Close_running.
Qed.

(** X16.  Once the consumer of the first logger has left (after [Close]),
    nothing panics and nothing is written any more.  A call of Print,
    Println or Printf, and a further [Close], return normally as long as
    the queue has room: the entry or the nil entry is put in the queue and
    stays there.  When the queue holds 64 items every call waits, with
    nobody left to make room.  Whatever program runs, the sink keeps what
    it had. *)
Theorem legacy_nothing_after_Close (a : Logger) :
  Legacy.doneChan_closed a = true ->
  Legacy.exec Legacy.Turn a = (Blocked, a) /\
  (forall o, o <> Legacy.Turn ->
     Legacy.exec o a
     = if (length (Legacy.entChan a) <? Legacy.entChan_cap)%nat
       then (Done tt,
             Legacy.set_entChan (Legacy.entChan a ++ Legacy.sends o) a)
       else (Blocked, a)) /\
  (forall ops,
     Legacy.out (Legacy.exec_all ops a).2 = Legacy.out a /\
     Legacy.doneChan_closed (Legacy.exec_all ops a).2 = true /\
     ((Legacy.exec_all ops a).1 = Done tt \/
      (Legacy.exec_all ops a).1 = Blocked)).
Proof.
  intros Hd.
  assert (forall b, Legacy.doneChan_closed b = true ->
            Legacy.exec Legacy.Turn b = (Blocked, b)) as Hturn.
  { intros b Hb. simpl.
    unfold Legacy.run_step, mbind, Legacy.go_bind, Legacy.get.
    by rewrite Hb. }
  assert (forall b o, Legacy.doneChan_closed b = true -> o <> Legacy.Turn ->
            Legacy.exec o b
            = if (length (Legacy.entChan b) <? Legacy.entChan_cap)%nat
              then (Done tt,
                    Legacy.set_entChan
                      (Legacy.entChan b ++ Legacy.sends o) b)
              else (Blocked, b)) as Hcall.
  { intros b o Hb Hne. destruct o as [md now fmt v| |]; [| |done]; simpl.
    - rewrite legacy_print_call_send. reflexivity.
    - unfold Legacy.Close, mbind, Legacy.go_bind, Legacy.chan_send.
      destruct (_ <? _)%nat; [|done].
      unfold Legacy.get. by rewrite legacy_await_done. }
  split; [by apply Hturn|]. split; [intros o; by apply Hcall|].
  intros ops. revert a Hd.
  induction ops as [|o ops IH]; intros a Hd; [by auto|].
  unfold Legacy.exec_all. simpl. unfold mbind, Legacy.go_bind.
  assert (o = Legacy.Turn \/ o <> Legacy.Turn) as [->|Hne]
    by (destruct o; auto).
  - rewrite (Hturn a Hd). by auto.
  - rewrite (Hcall a o Hd Hne).
    destruct (_ <? _)%nat; [|by auto].
    apply (IH (Legacy.set_entChan (Legacy.entChan a ++ Legacy.sends o) a)).
    done.
Qed.

(** X17.  On the first logger, with the consumer alive and room in the queue
    for two items, Panic, Panicln and Panicf enqueue the entry of the call,
    wait in [Close] until every entry sent, this one last, has been
    written, and then panic: Panic and Panicln with fmt.Sprint of the
    arguments, Panicf with fmt.Sprintf of the format and the arguments.
    Fatal, Fatalln and Fatalf do the same and end with os.Exit(1). *)
Theorem legacy_terminal_calls (md : mode) (sent : list Legacy.entry)
    (a : Logger) (now : Z) (fmt : string) (v : list value) :
  Legacy.running sent a ->
  (length (Legacy.entChan a) + 2 <= Legacy.entChan_cap)%nat ->
  let e := Legacy.entry_of md now fmt v in
  exists a2,
    Legacy.panic_call md now fmt v a
      = (GoPanic (match md with
                  | formatted => Sprintf fmt v
                  | _ => Sprint v
                  end), a2) /\
    Legacy.fatal_call md now fmt v a = (OsExit 1, a2) /\
    (Legacy.print_call md now fmt v ;; Legacy.Close) a = (Done tt, a2) /\
    Legacy.entChan a2 = [] /\ Legacy.doneChan_closed a2 = true /\
    Legacy.out a2 = Legacy.line_of a2 <$> (sent ++ [e]).
Proof.
  intros Hrun Hroom e.
  assert (Legacy.print_call md now fmt v a
          = (Done tt, Legacy.set_entChan (Legacy.entChan a ++ [Some e]) a))
    as Hsend.
  { rewrite legacy_print_call_send. apply legacy_chan_send_room. lia. }
  destruct (legacy_Close_running (sent ++ [e])
              (Legacy.set_entChan (Legacy.entChan a ++ [Some e]) a))
    as (a2 & Hcl & Hq & Hd & Hout).
  { by apply legacy_running_send. }
  { simpl. rewrite length_app. simpl. lia. }
  assert (forall B (k : Legacy.go B),
            (Legacy.print_call md now fmt v ;; Legacy.Close ;; k) a = k a2)
    as Hk.
  { intros B k. erewrite legacy_bind_done; [|exact Hsend].
    by erewrite legacy_bind_done; [|exact Hcl]. }
  exists a2. split; [|split; [|split]].
  - destruct md; simpl;
      [apply (Hk unit (Legacy.panic (Sprint v)))
      |apply (Hk unit (Legacy.panic (Sprint v)))
      |apply (Hk unit (Legacy.panic (Sprintf fmt v)))].
  - destruct md; apply (Hk unit (Legacy.os_Exit 1)).
  - erewrite legacy_bind_done; [|exact Hsend]. exact Hcl.
  - done.
Qed.

End LegacyLogger.

(** * The further properties at concrete inputs *)

Lemma running_text_warn : running [] text_warn.
Proof. by repeat split. Qed.

Lemma running_text_debug : running [] text_debug.
Proof. by repeat split. Qed.

Lemma Fatal_family_exits_witness :
  exists a2,
    call FFatal plain Base 0 "" [VStr "x"] text_warn = (OsExit 1, a2) /\
    out a2 = ["pfx  FATAL x" +:+ newline] /\
    entChan a2 = [] /\ doneChan_closed a2 = true.
Proof.
  destruct (Fatal_family_exits plain [] text_warn Base 0 "" [VStr "x"])
    as (a2 & Hcall & Hcl & Hq & Hc & Hd & Ht & _).
  - exact running_text_warn.
  - exact I.
  - vm_compute. lia.
  - exists a2. split; [exact Hcall|]. split; [|split; [exact Hq | exact Hd]].
    revert Hcall. vm_compute. intros [= <-]. reflexivity.
Defined.

Lemma Panic_family_payload_witness :
  exists a2,
    call FPanic formatted (Scoped (Some 0%nat)) 0 "boom" [] text_debug
      = (GoPanic "boom", a2) /\
    out a2 = [" PANIC boom (foo=bar)" +:+ newline] /\
    entChan a2 = [] /\ doneChan_closed a2 = true.
Proof.
  destruct (Panic_family_payload formatted [] text_debug (Scoped (Some 0%nat))
              0 "boom" [])
    as (a2 & Hcall & Hcl & _ & Hq & Hc & Hd & Ht & _).
  - exact running_text_debug.
  - vm_compute. discriminate.
  - vm_compute. lia.
  - vm_compute. lia.
  - exists a2. split; [exact Hcall|]. split; [|split; [exact Hq | exact Hd]].
    revert Hcall. vm_compute. intros [= <-]. reflexivity.
Defined.

Lemma Close_twice_panics_witness :
  exists a2,
    Close text_debug = (Done tt, a2) /\
    Close a2 = (GoPanic "close of closed channel", a2) /\
    run_step a2 = (Blocked, a2).
Proof.
  destruct (Close_twice_panics [] text_debug running_text_debug)
    as (a2 & H1 & H2 & H3 & _).
  exists a2. split; [exact H1|]. split; [exact H2 | exact H3].
Defined.

Lemma call_on_closed_channel_witness :
  entChan_closed (Close text_warn).2 = true /\
  call FWarn plain Base 0 "" [VStr "x"] (Close text_warn).2
    = (GoPanic "send on closed channel", (Close text_warn).2) /\
  call FPrint line Base 0 "" [VStr "x"] (Close text_warn).2
    = (GoPanic "send on closed channel", (Close text_warn).2) /\
  call FInfo plain Base 0 "" [VStr "x"] (Close text_warn).2
    = (Done tt, (Close text_warn).2).
Proof.
  assert (entChan_closed (Close text_warn).2 = true) as Hc by reflexivity.
  split; [exact Hc|]. split; [|split].
  - exact (call_on_closed_channel FWarn plain Base 0 "" [VStr "x"] _ Hc).
  - exact (call_on_closed_channel FPrint line Base 0 "" [VStr "x"] _ Hc).
  - exact (call_on_closed_channel FInfo plain Base 0 "" [VStr "x"] _ Hc).
Defined.

Lemma consumer_leaves_last_witness :
  doneChan_closed
    (exec_all [Call FInfo plain Base 0 "" [VStr "x"]; DoClose]
       (NewText [] DebugLevel "" "")).2 = true /\
  entChan_closed
    (exec_all [Call FInfo plain Base 0 "" [VStr "x"]; DoClose]
       (NewText [] DebugLevel "" "")).2 = true /\
  entChan
    (exec_all [Call FInfo plain Base 0 "" [VStr "x"]; DoClose]
       (NewText [] DebugLevel "" "")).2 = [].
Proof.
  split; [reflexivity|].
  exact (consumer_leaves_last false [] DebugLevel "" ""
           [Call FInfo plain Base 0 "" [VStr "x"]; DoClose] eq_refl).
Defined.

Lemma running_full_queue :
  running (replicate entChan_cap (info_entry None "x"))
    (full_queue text_debug (info_entry None "x")).
Proof.
  assert (entry_ok (heap text_debug) (info_entry None "x")) as He.
  { split; [vm_compute; split; discriminate | exact I]. }
  split; [reflexivity|]. split; [reflexivity|].
  split; [by apply Forall_replicate|]. split; [by apply Forall_replicate|].
  reflexivity.
Qed.

Lemma full_queue_blocks_until_a_turn_witness :
  call FInfo plain Base 1 "" [VStr "y"]
    (full_queue text_debug (info_entry None "x"))
  = (Blocked, full_queue text_debug (info_entry None "x")) /\
  exists a1,
    run_step (full_queue text_debug (info_entry None "x")) = (Done tt, a1) /\
    out a1 = [" INFO x" +:+ newline] /\
    (call FInfo plain Base 1 "" [VStr "y"] a1).1 = Done tt.
Proof.
  pose proof (full_queue_blocks_until_a_turn FInfo plain Base 1 ""
    [VStr "y"] _ _ running_full_queue eq_refl
    ltac:(discriminate) ltac:(discriminate)) as H.
  change (admitted (full_queue text_debug (info_entry None "x")) FInfo)
    with true in H.
  cbv zeta iota in H. destruct H as (Hb & a1 & Hstep & Hq & Hcall & _).
  split; [exact Hb|]. exists a1. split; [exact Hstep|].
  split; [|by rewrite Hcall].
  revert Hstep. vm_compute. intros [= <-]. reflexivity.
Defined.

Lemma WithField_fields_witness :
  exists hnd a',
    WithField (Scoped (Some 0%nat)) "k" (VInt 1) text_debug = (Done hnd, a') /\
    deref (heap a') (hfields hnd) = <["k" := VInt 1]> foo_bar /\
    heap a' !! 0%nat = Some foo_bar.
Proof.
  destruct (WithField_fields (Scoped (Some 0%nat)) "k" (VInt 1) text_debug)
    as (hnd & a' & Hrun & Hf & Hold & _).
  - vm_compute. lia.
  - exists hnd, a'. split; [exact Hrun|]. split; [exact Hf|].
    by apply Hold.
Defined.

Lemma writeJSON_keeps_other_fields_witness :
  json_object json_debug (info_entry (Some 0%nat) "hi") foo_bar !! "foo"
  = Some (VStr "bar") /\
  json_object json_debug (info_entry (Some 0%nat) "hi") foo_bar !! "time"
  = None.
Proof.
  assert (entry_ok (heap json_debug) (info_entry (Some 0%nat) "hi")) as Hok.
  { split; [vm_compute; split; discriminate | vm_compute; lia]. }
  destruct (writeJSON_keeps_other_fields json_debug
              (info_entry (Some 0%nat) "hi") Hok) as (_ & Hk & Ht & _).
  split.
  - apply (Hk "foo"); discriminate.
  - apply (Ht eq_refl).
Defined.

Lemma writeJSON_fieldless_entry_witness :
  (writeJSON (info_entry None "hi") json_debug).1 = Done tt /\
  heap (writeJSON (info_entry None "hi") json_debug).2
  = heap json_debug ++ [{[ "level" := VStr "info"; "msg" := VStr "hi" ]}] /\
  length (out (writeJSON (info_entry None "hi") json_debug).2) = 1%nat.
Proof.
  rewrite (writeJSON_fieldless_entry json_debug (info_entry None "hi")).
  - vm_compute. repeat split.
  - vm_compute. split; discriminate.
  - reflexivity.
Defined.

Lemma call_then_turn_text_witness :
  (call FPrint line Base 0 "" [VStr "y"; VStr "z"] ;; run_step) text_warn
  = (Done tt, set_out ["pfx  y z" +:+ newline]
                (set_buf ("pfx  y z" +:+ newline) text_warn)) /\
  (call FInfo plain Base 0 "" [VStr "y"] ;; run_step) text_warn
  = (Blocked, text_warn).
Proof.
  split.
  - exact (proj1 (call_then_turn_text FPrint line Base 0 "" [VStr "y"; VStr "z"]
             text_warn ltac:(discriminate) ltac:(discriminate)
             eq_refl eq_refl eq_refl eq_refl)).
  - exact (proj1 (call_then_turn_text FInfo plain Base 0 "" [VStr "y"]
             text_warn ltac:(discriminate) ltac:(discriminate)
             eq_refl eq_refl eq_refl eq_refl)).
Defined.

Lemma text_Close_returns_witness :
  entChan_closed
    (exec_all [Call FInfo plain Base 1 "" [VStr "x"];
               Call FInfo plain Base 2 "" [VStr "y"]; Turn]
       (NewText [] DebugLevel " " "")).2 = false /\
  exists a2,
    Close
      (exec_all [Call FInfo plain Base 1 "" [VStr "x"];
                 Call FInfo plain Base 2 "" [VStr "y"]; Turn]
         (NewText [] DebugLevel " " "")).2 = (Done tt, a2) /\
    entChan a2 = [] /\ doneChan_closed a2 = true /\
    out a2 = [" INFO x" +:+ newline; " INFO y" +:+ newline].
Proof.
  split; [reflexivity|].
  destruct (text_Close_returns (RT := small_runtime) [] DebugLevel " " ""
    [Call FInfo plain Base 1 "" [VStr "x"];
     Call FInfo plain Base 2 "" [VStr "y"]; Turn] eq_refl)
    as (a2 & Hcl & Hq & _ & Hd & Hout).
  exists a2. split; [exact Hcl|]. split; [exact Hq|]. split; [exact Hd|].
  rewrite Hout. vm_compute. reflexivity.
Defined.

Lemma constructed_time_layout_witness :
  tsLayout (NewText [foo_bar] InfoLevel "" "pfx ") = "Jan 02 15:04:05" /\
  tsLayout (NewText [foo_bar] InfoLevel "  " "pfx ") = "" /\
  tsLayout (NewJSON [foo_bar] InfoLevel " T ") = "T" /\
  json_object (NewJSON [foo_bar] InfoLevel " T ")
    (info_entry (Some 0%nat) "hi") foo_bar !! "time" = Some (VStr "T").
Proof.
  assert (entry_ok [foo_bar] (info_entry (Some 0%nat) "hi")) as Hok.
  { split; [vm_compute; split; discriminate | vm_compute; lia]. }
  pose proof (constructed_time_layout [foo_bar] InfoLevel "" "pfx "
                (info_entry (Some 0%nat) "hi") Hok) as (H1 & _).
  pose proof (constructed_time_layout [foo_bar] InfoLevel "  " "pfx "
                (info_entry (Some 0%nat) "hi") Hok) as (H2 & _).
  pose proof (constructed_time_layout [foo_bar] InfoLevel " T " ""
                (info_entry (Some 0%nat) "hi") Hok)
    as (_ & H3 & _ & _ & _ & H4).
  split; [exact H1|]. split; [exact H2|]. split; [exact H3 | exact H4].
Defined.


Lemma legacy_Close_drains_witness :
  exists a2,
    Legacy.Close
      (Legacy.exec_all
         [Legacy.DoPrint plain 1 "" [VStr "a"]; Legacy.Turn;
          Legacy.DoPrint line 2 "" [VStr "b"; VStr "c"]]
         (Legacy.New "app: " "T")).2 = (Done tt, a2) /\
    Legacy.out a2 = ["app: T a" +:+ newline; "app: T b c" +:+ newline] /\
    Legacy.entChan a2 = [] /\ Legacy.doneChan_closed a2 = true.
Proof.
  destruct (legacy_Close_drains "app: " "T"
    [Legacy.DoPrint plain 1 "" [VStr "a"]; Legacy.Turn;
     Legacy.DoPrint line 2 "" [VStr "b"; VStr "c"]]
    (Legacy.exec_all
       [Legacy.DoPrint plain 1 "" [VStr "a"]; Legacy.Turn;
        Legacy.DoPrint line 2 "" [VStr "b"; VStr "c"]]
       (Legacy.New "app: " "T")).2)
    as (a2 & Hcl & Hq & Hd & Hout).
  - repeat constructor; discriminate.
  - vm_compute. reflexivity.
  - vm_compute. lia.
  - exists a2. split; [exact Hcl|]. split; [|split; [exact Hq | exact Hd]].
    revert Hcl. vm_compute. intros [= <-]. reflexivity.
Defined.

Lemma legacy_nothing_after_Close_witness :
  Legacy.doneChan_closed (Legacy.Close (Legacy.New "" " ")).2 = true /\
  Legacy.exec (Legacy.DoPrint plain 0 "" [VStr "late"])
    (Legacy.Close (Legacy.New "" " ")).2
  = (Done tt,
     Legacy.set_entChan
       [Some (Legacy.entry_of plain 0 "" [VStr "late"])]
       (Legacy.Close (Legacy.New "" " ")).2) /\
  Legacy.out
    (Legacy.exec_all
       [Legacy.DoPrint plain 0 "" [VStr "late"]; Legacy.DoClose]
       (Legacy.Close (Legacy.New "" " ")).2).2 = [].
Proof.
  assert (Legacy.doneChan_closed (Legacy.Close (Legacy.New "" " ")).2 = true)
    as Hd by reflexivity.
  destruct (legacy_nothing_after_Close _ Hd) as (_ & Hcall & Hall).
  split; [exact Hd|]. split.
  - apply (Hcall (Legacy.DoPrint plain 0 "" [VStr "late"])). discriminate.
  - apply (Hall [Legacy.DoPrint plain 0 "" [VStr "late"]; Legacy.DoClose]).
Defined.

Lemma legacy_terminal_calls_witness :
  exists a2,
    Legacy.panic_call line 0 "" [VStr "a"; VStr "b"] (Legacy.New "" " ")
      = (GoPanic "ab", a2) /\
    Legacy.fatal_call line 0 "" [VStr "a"; VStr "b"] (Legacy.New "" " ")
      = (OsExit 1, a2) /\
    Legacy.out a2 = ["a b" +:+ newline] /\
    Legacy.doneChan_closed a2 = true.
Proof.
  destruct (legacy_terminal_calls line [] (Legacy.New "" " ") 0 ""
              [VStr "a"; VStr "b"])
    as (a2 & Hp & Hf & Hcl & Hq & Hd & Hout).
  - split; [reflexivity|]. by exists [].
  - vm_compute. lia.
  - exists a2. split; [exact Hp|]. split; [exact Hf|]. split; [|exact Hd].
    revert Hp. vm_compute. intros [= <-]. reflexivity.
Defined.
